(** * Serial port permission context (shell/browser/serial/serial_chooser_context.cc)

    A shallow embedding of [SerialChooserContext] and of the helpers of its
    translation unit: the token codec ([EncodeToken], [DecodeToken]), the
    record serializer ([PortInfoToValue]), the eligibility rule
    ([CanStorePersistentEntry]) and the permission store operations
    ([GrantPortPermission], [HasPortPermission], [OnPortAdded],
    [OnPortRemoved], [OnPortManagerConnectionError]).

    Conventions.
    - The three build configurations ([OS_WIN], [OS_MAC], neither) are a
      value of type [platform] that every platform-dependent function takes.
    - [uint64_t], [uint16_t] and [int] values are integers of [Z]; bytes are
      integers in [0, 256).
    - A [base::Value] dictionary is a finite map from keys to values.
    - Dereferencing the result of a failed [FindStringKey] / [FindIntKey] is
      undefined in the source; the embedding makes it the outcome [Crash].
    - [DCHECK]s are compiled out (release build); where the source relies on
      one, a lemma shows that it holds. *)

From Stdlib Require Import ZArith Lia Ascii String.
From stdpp Require Import gmap strings list list_numbers fin_maps.

Local Open Scope Z_scope.

(** ** base::UnguessableToken *)

(** Modelled from the spec: [base::UnguessableToken] is a class of the base
    library, an opaque token of two 64-bit halves. A token is its two
    halves; the default-constructed token has both halves zero and is the
    empty (null) token. *)
Record UnguessableToken : Type := MkToken {
  GetHighForSerialization : Z;
  GetLowForSerialization : Z
}.

Definition UnguessableToken_default : UnguessableToken := MkToken 0 0.

(** [UnguessableToken::Deserialize(high, low)]: the token of the two halves
    (its DCHECK that they are not both zero is compiled out). *)
Definition Deserialize (high low : Z) : UnguessableToken := MkToken high low.

Definition is_empty (t : UnguessableToken) : bool :=
  (GetHighForSerialization t =? 0) && (GetLowForSerialization t =? 0).

Definition uint64 (x : Z) : Prop := 0 <= x < 2 ^ 64.

Definition token_in_range (t : UnguessableToken) : Prop :=
  uint64 (GetHighForSerialization t) /\ uint64 (GetLowForSerialization t).

#[global] Instance UnguessableToken_eq_dec : EqDecision UnguessableToken.
Proof. solve_decision. Defined.

#[global] Instance UnguessableToken_countable : Countable UnguessableToken.
Proof.
  refine (inj_countable'
            (fun t => (GetHighForSerialization t, GetLowForSerialization t))
            (fun p => MkToken p.1 p.2) _).
  by intros [].
Defined.

(** ** base::Base64Encode / base::Base64Decode *)

Module Base64.

(** Modelled from the spec: [base::Base64Encode] and [base::Base64Decode] are
    functions of the base library, whose code is not part of this
    repository. The specification only says that the text is a fixed-length
    encoding and that decoding fails on malformed text or a wrong decoded
    length; they are modelled as RFC 4648 base64 with
    [=] padding in the shape of the library's table-driven codec: three bytes
    become four characters, the decoder wants a length that is a multiple of
    four, removes at most two trailing pads, and refuses every character
    outside the alphabet. *)
Definition alphabet : string :=
  "ABCDEFGHIJKLMNOPQRSTUVWXYZabcdefghijklmnopqrstuvwxyz0123456789+/".

Definition CHARPAD : ascii := "="%char.

(** The character of a six-bit value. *)
Definition e (s : Z) : ascii :=
  default "A"%char (String.get (Z.to_nat s) alphabet).

Fixpoint index_from (i : Z) (c : ascii) (tbl : list ascii) : option Z :=
  match tbl with
  | [] => None
  | x :: tbl' => if Ascii.eqb x c then Some i else index_from (i + 1) c tbl'
  end.

(** The six-bit value of a character; [None] is the table's BADCHAR. *)
Definition d (c : ascii) : option Z :=
  index_from 0 c (list_ascii_of_string alphabet).

Fixpoint encode_chunks (str : list Z) : list ascii :=
  match str with
  | [] => []
  | [t1] =>
      [e (t1 ≫ 2); e (Z.land t1 3 ≪ 4); CHARPAD; CHARPAD]
  | [t1; t2] =>
      [e (t1 ≫ 2);
       e (Z.lor (Z.land t1 3 ≪ 4) (Z.land (t2 ≫ 4) 15));
       e (Z.land t2 15 ≪ 2);
       CHARPAD]
  | t1 :: t2 :: t3 :: rest =>
      e (t1 ≫ 2)
      :: e (Z.lor (Z.land t1 3 ≪ 4) (Z.land (t2 ≫ 4) 15))
      :: e (Z.lor (Z.land t2 15 ≪ 2) (Z.land (t3 ≫ 6) 3))
      :: e (Z.land t3 63)
      :: encode_chunks rest
  end.

Definition Base64Encode (input : list Z) : string :=
  string_of_list_ascii (encode_chunks input).

(** [if (src[len-1] == CHARPAD) len--;] *)
Definition drop_pad (src : list ascii) : list ascii :=
  match last src with
  | Some c => if Ascii.eqb c CHARPAD then removelast src else src
  | None => src
  end.

Fixpoint decode_chunks (y : list ascii) : option (list Z) :=
  match y with
  | [] => Some []
  | [c1] => _ ← d c1; Some []
  | [c1; c2] =>
      v1 ← d c1; v2 ← d c2;
      Some [Z.lor (v1 ≪ 2) (v2 ≫ 4)]
  | [c1; c2; c3] =>
      v1 ← d c1; v2 ← d c2; v3 ← d c3;
      Some [Z.lor (v1 ≪ 2) (v2 ≫ 4); Z.lor (Z.land v2 15 ≪ 4) (v3 ≫ 2)]
  | c1 :: c2 :: c3 :: c4 :: rest =>
      v1 ← d c1; v2 ← d c2; v3 ← d c3; v4 ← d c4;
      out ← decode_chunks rest;
      Some (Z.lor (v1 ≪ 2) (v2 ≫ 4)
            :: Z.lor (Z.land v2 15 ≪ 4) (v3 ≫ 2)
            :: Z.lor (Z.land v3 3 ≪ 6) v4
            :: out)
  end.

(** [None] is the [false] result of [base::Base64Decode]. *)
Definition Base64Decode (input : string) : option (list Z) :=
  let src := list_ascii_of_string input in
  let len := length src in
  if (len =? 0)%nat then Some []
  else if (len <? 4)%nat || negb (len mod 4 =? 0)%nat then None
  else decode_chunks (drop_pad (drop_pad src)).

End Base64.

(** ** The token codec *)

(** [reinterpret_cast<const char*>(&data[0])] over [uint64_t data[2]]: the
    sixteen bytes of the two words, each least significant byte first (every
    target of the build is little-endian). *)
Definition token_bytes (token : UnguessableToken) : list Z :=
  Z_to_little_endian 8 8 (GetHighForSerialization token)
  ++ Z_to_little_endian 8 8 (GetLowForSerialization token).

Definition EncodeToken (token : UnguessableToken) : string :=
  Base64.Base64Encode (token_bytes token).

Definition DecodeToken (input : string) : UnguessableToken :=
  match Base64.Base64Decode input with
  | None => UnguessableToken_default
  | Some buffer =>
      if bool_decide (length buffer ≠ 16%nat) then UnguessableToken_default
      else Deserialize (little_endian_to_Z 8 (take 8 buffer))
                       (little_endian_to_Z 8 (drop 8 buffer))
  end.

(** ** Outcomes of code that may dereference an absent value *)

Inductive outcome (A : Type) : Type :=
| Returns (a : A)
| Crash.
Arguments Returns {A} a.
Arguments Crash {A}.

#[global] Instance outcome_ret : MRet outcome := fun A a => Returns a.
#[global] Instance outcome_bind : MBind outcome := fun A B f m =>
  match m with
  | Returns a => f a
  | Crash => Crash
  end.

(** [*p] for a pointer or optional [p]: undefined when [p] is null or empty. *)
Definition deref {A : Type} (p : option A) : outcome A :=
  match p with
  | Some a => Returns a
  | None => Crash
  end.

(** ** base::Value dictionaries *)

Inductive Value : Type :=
| StringValue (s : string)
| IntValue (i : Z).

#[global] Instance Value_eq_dec : EqDecision Value.
Proof. solve_decision. Defined.

Abbreviation dict := (gmap string Value).

Definition SetStringKey (key : string) (s : string) (v : dict) : dict :=
  <[key := StringValue s]> v.

Definition SetIntKey (key : string) (i : Z) (v : dict) : dict :=
  <[key := IntValue i]> v.

(** Null unless the key is there and holds a string. *)
Definition FindStringKey (key : string) (v : dict) : option string :=
  match v !! key with
  | Some (StringValue s) => Some s
  | _ => None
  end.

(** Empty unless the key is there and holds an integer. *)
Definition FindIntKey (key : string) (v : dict) : option Z :=
  match v !! key with
  | Some (IntValue i) => Some i
  | _ => None
  end.

Definition kPortNameKey : string := "name".
Definition kTokenKey : string := "token".
Definition kDeviceInstanceIdKey : string := "device_instance_id".
Definition kVendorIdKey : string := "vendor_id".
Definition kProductIdKey : string := "product_id".
Definition kSerialNumberKey : string := "serial_number".
Definition kUsbDriverKey : string := "usb_driver".

(** ** device::mojom::SerialPortInfo *)

Inductive platform : Type := OS_WIN | OS_MAC | OS_OTHER.

(** Modelled from the spec: the declaration of [device::mojom::SerialPortInfo]
    (the device descriptor) is generated code that this repository does not
    hold. The fields are the ones the translation unit reads, with the types
    its accesses show: optional strings where it tests for presence, a plain
    string for the device instance id, a flag beside each of the two ids.
    [device_instance_id] exists on Windows only and [usb_driver_name] on
    macOS only; the record carries both and each function reads the ones of
    its platform. [path] is kept as the text [path.LossyDisplayName()]
    yields. *)
Record SerialPortInfo : Type := MkPort {
  token : UnguessableToken;
  path : string;
  display_name : option string;
  device_instance_id : string;
  has_vendor_id : bool;
  vendor_id : Z;
  has_product_id : bool;
  product_id : Z;
  serial_number : option string;
  usb_driver_name : option string
}.

Definition LossyDisplayName (p : string) : string := p.

(** [std::string::empty]. *)
Definition string_empty (s : string) : bool := String.eqb s "".

(** [!o || o->empty()] *)
Definition absent_or_empty (o : option string) : bool :=
  match o with
  | None => true
  | Some s => string_empty s
  end.

Definition CanStorePersistentEntry (os : platform) (port : SerialPortInfo) : bool :=
  if absent_or_empty (display_name port) then false
  else
    match os with
    | OS_WIN => negb (string_empty (device_instance_id port))
    | _ =>
        if negb (has_vendor_id port) || negb (has_product_id port)
           || absent_or_empty (serial_number port)
        then false
        else
          match os with
          | OS_MAC =>
              if absent_or_empty (usb_driver_name port) then false else true
          | _ => true
          end
    end.

Definition PortInfoToValue (os : platform) (port : SerialPortInfo) : outcome dict :=
  value ←
    (if negb (absent_or_empty (display_name port))
     then name ← deref (display_name port);
          mret (SetStringKey kPortNameKey name ∅)
     else mret (SetStringKey kPortNameKey (LossyDisplayName (path port)) ∅));
  if negb (CanStorePersistentEntry os port)
  then mret (SetStringKey kTokenKey (EncodeToken (token port)) value)
  else
    match os with
    | OS_WIN =>
        mret (SetStringKey kDeviceInstanceIdKey (device_instance_id port) value)
    | _ =>
        let value := SetIntKey kVendorIdKey (vendor_id port) value in
        let value := SetIntKey kProductIdKey (product_id port) value in
        serial ← deref (serial_number port);
        let value := SetStringKey kSerialNumberKey serial value in
        match os with
        | OS_MAC =>
            driver ← deref (usb_driver_name port);
            mret (SetStringKey kUsbDriverKey driver value)
        | _ => mret value
        end
    end.

(** The body of the loop of [HasPortPermission] over one granted object:
    [Returns true] is [return true], [Returns false] is the end of the
    iteration ([continue]). The keys are read and dereferenced before they
    are compared, the driver key only once the first three compare equal. *)
Definition granted_object_matches
  (os : platform) (port : SerialPortInfo) (device : dict) : outcome bool :=
  match os with
  | OS_WIN =>
      id ← deref (FindStringKey kDeviceInstanceIdKey device);
      mret (bool_decide (device_instance_id port = id))
  | _ =>
      vendor ← deref (FindIntKey kVendorIdKey device);
      product ← deref (FindIntKey kProductIdKey device);
      serial ← deref (FindStringKey kSerialNumberKey device);
      if bool_decide (vendor_id port ≠ vendor)
         || bool_decide (product_id port ≠ product)
         || bool_decide (serial_number port ≠ Some serial)
      then mret false
      else
        match os with
        | OS_MAC =>
            driver ← deref (FindStringKey kUsbDriverKey device);
            if bool_decide (usb_driver_name port ≠ Some driver)
            then mret false
            else mret true
        | _ => mret true
        end
  end.

(** [for (const auto& device : object_list) ...; return false;] *)
Fixpoint scan_granted_objects
  (os : platform) (port : SerialPortInfo) (object_list : list dict) : outcome bool :=
  match object_list with
  | [] => mret false
  | device :: rest =>
      granted_object_matches os port device ≫= λ found : bool,
        if found then mret true else scan_granted_objects os port rest
  end.

(** ** The collaborators of the context *)

(** The profile's store of granted objects ([ElectronBrowserContext]), an
    external collaborator. The context only calls its two entry points, so
    they are the interface, and the state [B] of the store is any type that
    implements them. *)
Class ObjectPermissionStore (Origin B : Type) : Type := {
  GrantObjectPermission : Origin → dict → string → B → B;
  GetGrantedObjects : Origin → string → B → list dict
}.

(** Modelled from the spec: [SerialChooserContext::PortObserver] is declared
    in the header; an observer is a capability subscribed to the arrival and
    removal of devices. It is its two callbacks, acting on the state [W] of
    whatever the observers belong to; an observer does not call back into
    the context while it is notified. *)
Record PortObserver (W : Type) : Type := MkObserver {
  observer_OnPortAdded : SerialPortInfo → W → W;
  observer_OnPortRemoved : SerialPortInfo → W → W
}.
Arguments MkObserver {W} _ _.
Arguments observer_OnPortAdded {W} _ _ _.
Arguments observer_OnPortRemoved {W} _ _ _.

(** ** SerialChooserContext *)

Section Context.

Context {Origin : Type} `{Countable Origin}.
Context {B : Type} `{!ObjectPermissionStore Origin B}.
Context {W : Type}.

(** The name of the collection of granted serial devices, a constant that is
    declared in the header only. *)
Variable kSerialGrantedDevicesPref : string.

Variable os : platform.

(** The fields of the class as its member functions use them (the header
    declares them). [port_manager_] and [client_receiver_] are mojo
    endpoints, of which only "bound or not" is kept. *)
Record SerialChooserContext : Type := MkContext {
  browser_context_ : B;
  port_info_ : gmap UnguessableToken dict;
  ephemeral_ports_ : gmap Origin (gset UnguessableToken);
  port_observer_list_ : list (PortObserver W);
  port_manager_ : bool;
  client_receiver_ : bool
}.

(** [std::map::insert]: nothing changes when the key is already there. *)
Definition map_insert_new {V : Type}
  (k : UnguessableToken) (v : V) (m : gmap UnguessableToken V) : gmap UnguessableToken V :=
  match m !! k with
  | Some _ => m
  | None => <[k := v]> m
  end.

(** [ephemeral_ports_[origin].insert(token)]: [operator[]] makes the empty
    set for an origin that has none. *)
Definition ephemeral_insert (origin : Origin) (t : UnguessableToken)
  (m : gmap Origin (gset UnguessableToken)) : gmap Origin (gset UnguessableToken) :=
  <[origin := {[t]} ∪ default ∅ (m !! origin)]> m.

Definition GrantPortPermission
  (origin : Origin) (port : SerialPortInfo) (s : SerialChooserContext)
  : outcome SerialChooserContext :=
  value ← PortInfoToValue os port;
  let port_info := map_insert_new (token port) value (port_info_ s) in
  if CanStorePersistentEntry os port
  then mret (MkContext
               (GrantObjectPermission origin value kSerialGrantedDevicesPref
                  (browser_context_ s))
               port_info (ephemeral_ports_ s)
               (port_observer_list_ s) (port_manager_ s) (client_receiver_ s))
  else mret (MkContext
               (browser_context_ s)
               port_info (ephemeral_insert origin (token port) (ephemeral_ports_ s))
               (port_observer_list_ s) (port_manager_ s) (client_receiver_ s)).

Definition HasPortPermission
  (origin : Origin) (port : SerialPortInfo) (s : SerialChooserContext)
  : outcome bool :=
  if match ephemeral_ports_ s !! origin with
     | Some ports => bool_decide (token port ∈ ports)
     | None => false
     end
  then mret true
  else if negb (CanStorePersistentEntry os port) then mret false
  else scan_granted_objects os port
         (GetGrantedObjects origin kSerialGrantedDevicesPref (browser_context_ s)).

(** The loop over [port_observer_list_], in the order of the list. *)
Definition notify_added (port : SerialPortInfo)
  (observers : list (PortObserver W)) (w : W) : W :=
  foldl (λ w observer, observer_OnPortAdded observer port w) w observers.

Definition notify_removed (port : SerialPortInfo)
  (observers : list (PortObserver W)) (w : W) : W :=
  foldl (λ w observer, observer_OnPortRemoved observer port w) w observers.

Definition OnPortAdded (port : SerialPortInfo) (s : SerialChooserContext) (w : W)
  : SerialChooserContext * W :=
  (s, notify_added port (port_observer_list_ s) w).

Definition OnPortRemoved (port : SerialPortInfo) (s : SerialChooserContext) (w : W)
  : SerialChooserContext * W :=
  let w := notify_removed port (port_observer_list_ s) w in
  (MkContext (browser_context_ s)
     (delete (token port) (port_info_ s)) (ephemeral_ports_ s)
     (port_observer_list_ s) (port_manager_ s) (client_receiver_ s),
   w).

Definition SetUpPortManagerConnection (s : SerialChooserContext) : SerialChooserContext :=
  MkContext (browser_context_ s) (port_info_ s) (ephemeral_ports_ s)
    (port_observer_list_ s) true true.

Definition EnsurePortManagerConnection (s : SerialChooserContext) : SerialChooserContext :=
  if port_manager_ s then s else SetUpPortManagerConnection s.

Definition OnPortManagerConnectionError (s : SerialChooserContext) : SerialChooserContext :=
  MkContext (browser_context_ s) ∅ ∅ (port_observer_list_ s) false false.

(** The tokens granted to [origin] for the session. *)
Definition ephemeral_tokens (s : SerialChooserContext) (origin : Origin)
  : gset UnguessableToken :=
  default ∅ (ephemeral_ports_ s !! origin).

End Context.

Arguments SerialChooserContext Origin {_ _} B W.
Arguments MkContext {Origin _ _ B W} _ _ _ _ _ _.

(** ** A store and observers to run the context with *)

(** Modelled from the spec: the durable preference store is an external
    collaborator with [grantObject(origin, attributeMap, collectionName)] and
    [listGrantedObjects(origin, collectionName)], the latter an ordered
    sequence of attribute maps; granting is an upsert that does not duplicate
    an entry. Origins are kept in serialized form. *)
Definition PrefStore : Type := gmap (string * string) (list dict).

#[global] Instance PrefStore_store : ObjectPermissionStore string PrefStore := {
  GrantObjectPermission origin object key prefs :=
    let objects := default [] (prefs !! (key, origin)) in
    if bool_decide (object ∈ objects) then prefs
    else <[(key, origin) := objects ++ [object]]> prefs;
  GetGrantedObjects origin key prefs := default [] (prefs !! (key, origin))
}.

(** Observers that keep a log of what they were told. *)
Inductive PortEvent : Type :=
| PortAdded (observer : nat) (port : SerialPortInfo)
| PortRemoved (observer : nat) (port : SerialPortInfo).

Definition logging_observer (n : nat) : PortObserver (list PortEvent) :=
  MkObserver (λ port log, log ++ [PortAdded n port])
             (λ port log, log ++ [PortRemoved n port]).

(** ** Predicates and values that the statements use *)

(** A byte of a buffer. *)
Definition byte (b : Z) : Prop := 0 <= b < 256.

(** An optional string that is there and is not the empty string. *)
Definition present_nonempty (o : option string) : Prop :=
  ∃ s, o = Some s ∧ s ≠ ""%string.

(** The stable identity that the platform asks of a port. *)
Definition stable_identity (os : platform) (port : SerialPortInfo) : Prop :=
  match os with
  | OS_WIN => device_instance_id port ≠ ""%string
  | OS_MAC =>
      has_vendor_id port = true ∧ has_product_id port = true
      ∧ present_nonempty (serial_number port)
      ∧ present_nonempty (usb_driver_name port)
  | OS_OTHER =>
      has_vendor_id port = true ∧ has_product_id port = true
      ∧ present_nonempty (serial_number port)
  end.

(** The name a record carries: the display name, or the path when there is
    none to show. *)
Definition port_name (port : SerialPortInfo) : string :=
  match display_name port with
  | Some name => if string_empty name then LossyDisplayName (path port) else name
  | None => LossyDisplayName (path port)
  end.

(** The record of a port with a stable identity. The serial number and the
    driver name are read through [default], which the hypotheses of the
    lemmas below make the value itself. *)
Definition persistent_value (os : platform) (port : SerialPortInfo) : dict :=
  let name : dict := {[kPortNameKey := StringValue (default ""%string (display_name port))]} in
  match os with
  | OS_WIN => <[kDeviceInstanceIdKey := StringValue (device_instance_id port)]> name
  | _ =>
      let ids : dict :=
        <[kSerialNumberKey := StringValue (default ""%string (serial_number port))]>
          (<[kProductIdKey := IntValue (product_id port)]>
             (<[kVendorIdKey := IntValue (vendor_id port)]> name)) in
      match os with
      | OS_MAC =>
          <[kUsbDriverKey := StringValue (default ""%string (usb_driver_name port))]> ids
      | _ => ids
      end
  end.

(** The keys that the comparison of the platform reads. *)
Definition has_compared_keys (os : platform) (device : dict) : Prop :=
  match os with
  | OS_WIN => is_Some (FindStringKey kDeviceInstanceIdKey device)
  | OS_MAC =>
      is_Some (FindIntKey kVendorIdKey device)
      ∧ is_Some (FindIntKey kProductIdKey device)
      ∧ is_Some (FindStringKey kSerialNumberKey device)
      ∧ is_Some (FindStringKey kUsbDriverKey device)
  | OS_OTHER =>
      is_Some (FindIntKey kVendorIdKey device)
      ∧ is_Some (FindIntKey kProductIdKey device)
      ∧ is_Some (FindStringKey kSerialNumberKey device)
  end.

(** [port] shows the identity under which [granted] was stored. *)
Definition same_identity (os : platform) (granted port : SerialPortInfo) : Prop :=
  match os with
  | OS_WIN => device_instance_id port = device_instance_id granted
  | OS_MAC =>
      vendor_id port = vendor_id granted
      ∧ product_id port = product_id granted
      ∧ serial_number port = serial_number granted
      ∧ usb_driver_name port = usb_driver_name granted
  | OS_OTHER =>
      vendor_id port = vendor_id granted
      ∧ product_id port = product_id granted
      ∧ serial_number port = serial_number granted
  end.

(** ** Sample ports, origins and contexts *)

(** A port without a display name: nothing stable identifies it. *)
Definition tty_port : SerialPortInfo :=
  MkPort (MkToken 1 2) "/dev/ttyUSB0" None "" false 0 false 0 None None.

(** Vendor 0x1234, product 0x5678, serial number and display name, no driver
    name and no device instance id. *)
Definition widget_port : SerialPortInfo :=
  MkPort (MkToken 3 4) "/dev/ttyACM0" (Some "Widget Adapter") ""
    true 4660 true 22136 (Some "ABC123") None.

(** The same device after it was plugged in again: a new token. *)
Definition widget_port_again : SerialPortInfo :=
  MkPort (MkToken 5 6) "/dev/ttyACM1" (Some "Widget Adapter") ""
    true 4660 true 22136 (Some "ABC123") None.

Definition origin_x : string := "https://x.example".
Definition origin_y : string := "https://y.example".
Definition sample_pref : string := "serial_granted_devices".

Definition fresh_context : SerialChooserContext string PrefStore (list PortEvent) :=
  MkContext ∅ ∅ ∅ [logging_observer 0; logging_observer 1] false false.

(** Same vendor and product as [widget_port], another serial number. *)
Definition gadget_port : SerialPortInfo :=
  MkPort (MkToken 7 8) "/dev/ttyACM2" (Some "Gadget Adapter") ""
    true 4660 true 22136 (Some "XYZ789") None.

(** A context whose store holds the record of [widget_port] for [origin_x]. *)
Definition context_with_widget
  : SerialChooserContext string PrefStore (list PortEvent) :=
  MkContext {[(sample_pref, origin_x) := [persistent_value OS_OTHER widget_port]]}
    ∅ ∅ [] false false.

(** [fresh_context] after [tty_port] was granted to [origin_x]. *)
Definition context_with_tty
  : SerialChooserContext string PrefStore (list PortEvent) :=
  MkContext ∅
    {[token tty_port :=
        <[kTokenKey := StringValue (EncodeToken (token tty_port))]>
          {[kPortNameKey := StringValue "/dev/ttyUSB0"]}]}
    {[origin_x := {[token tty_port]}]}
    [logging_observer 0; logging_observer 1] false false.

(** A stored record in the shape of another platform: a name and a device
    instance id, none of the vendor, product and serial number keys. *)
Definition foreign_record : dict :=
  <[kDeviceInstanceIdKey := StringValue "USB-VID_1234-PID_5678-ABC123"]>
    {[kPortNameKey := StringValue "Widget Adapter"]}.

(** A context whose store holds [foreign_record] before the record of
    [widget_port], both granted to [origin_x]. *)
Definition context_with_foreign_record
  : SerialChooserContext string PrefStore (list PortEvent) :=
  MkContext
    {[(sample_pref, origin_x) := [foreign_record; persistent_value OS_OTHER widget_port]]}
    ∅ ∅ [] false false.

(** ** Sequences of calls on a context *)

Section Calls.

Context {Origin : Type} `{Countable Origin}.
Context {B : Type} `{!ObjectPermissionStore Origin B}.
Context {W : Type}.
Variable kSerialGrantedDevicesPref : string.
Variable os : platform.

(** The constructor: it keeps the browser context; every other member is
    default-constructed. *)
Definition new_context (browser_context : B) : SerialChooserContext Origin B W :=
  MkContext browser_context ∅ ∅ [] false false.

(** [GetPortManager]: the manager after [EnsurePortManagerConnection], as
    "bound or not". *)
Definition GetPortManager (s : SerialChooserContext Origin B W)
  : SerialChooserContext Origin B W * bool :=
  let s := EnsurePortManagerConnection s in
  (s, port_manager_ s).

(** The calls that clients and the port manager make on a context. *)
Inductive call : Type :=
| CallGrantPortPermission (origin : Origin) (port : SerialPortInfo)
| CallHasPortPermission (origin : Origin) (port : SerialPortInfo)
| CallGetPortManager
| CallOnPortAdded (port : SerialPortInfo)
| CallOnPortRemoved (port : SerialPortInfo)
| CallOnPortManagerConnectionError.

(** One call on the context and the state of the observers. A call that
    crashes ends the run. *)
Definition do_call (c : call) (st : SerialChooserContext Origin B W * W)
  : outcome (SerialChooserContext Origin B W * W) :=
  match c with
  | CallGrantPortPermission origin port =>
      GrantPortPermission kSerialGrantedDevicesPref os origin port st.1
      ≫= λ s : SerialChooserContext Origin B W, mret (s, st.2)
  | CallHasPortPermission origin port =>
      HasPortPermission kSerialGrantedDevicesPref os origin port st.1
      ≫= λ _ : bool, mret st
  | CallGetPortManager => mret ((GetPortManager st.1).1, st.2)
  | CallOnPortAdded port => mret (OnPortAdded port st.1 st.2)
  | CallOnPortRemoved port => mret (OnPortRemoved port st.1 st.2)
  | CallOnPortManagerConnectionError =>
      mret (OnPortManagerConnectionError st.1, st.2)
  end.

Fixpoint do_calls (cs : list call) (st : SerialChooserContext Origin B W * W)
  : outcome (SerialChooserContext Origin B W * W) :=
  match cs with
  | [] => mret st
  | c :: cs => do_call c st ≫= do_calls cs
  end.

(** What the context expects of the store: after a grant the objects listed
    for an origin are the ones listed before, and the granted object for the
    origin it was granted to. *)
Definition store_only_adds : Prop :=
  ∀ (origin origin' : Origin) (object d : dict) (b : B),
    d ∈ GetGrantedObjects origin' kSerialGrantedDevicesPref
          (GrantObjectPermission origin object kSerialGrantedDevicesPref b) →
    d ∈ GetGrantedObjects origin' kSerialGrantedDevicesPref b
    ∨ (origin' = origin ∧ d = object).

(** The store forgets nothing when an object is granted, and lists the
    granted object for its origin. *)
Definition store_keeps : Prop :=
  (∀ (origin origin' : Origin) (object d : dict) (b : B),
     d ∈ GetGrantedObjects origin' kSerialGrantedDevicesPref b →
     d ∈ GetGrantedObjects origin' kSerialGrantedDevicesPref
           (GrantObjectPermission origin object kSerialGrantedDevicesPref b))
  ∧ (∀ (origin : Origin) (object : dict) (b : B),
       object ∈ GetGrantedObjects origin kSerialGrantedDevicesPref
                  (GrantObjectPermission origin object kSerialGrantedDevicesPref b)).

(** Every object listed for any origin has the keys the scan compares. *)
Definition store_well_formed (b : B) : Prop :=
  ∀ origin : Origin,
    Forall (has_compared_keys os)
      (GetGrantedObjects origin kSerialGrantedDevicesPref b).

(** Every grant that the context holds goes back to a call in [cs]: a token
    in the ephemeral set of an origin to a grant to that origin of a port
    with that token that cannot be stored persistently, an object listed for
    an origin to a grant to that origin of the port it is the record of. *)
Definition accounted_for (cs : list call) (s : SerialChooserContext Origin B W) : Prop :=
  (∀ origin t,
     t ∈ ephemeral_tokens s origin →
     ∃ granted,
       CallGrantPortPermission origin granted ∈ cs
       ∧ CanStorePersistentEntry os granted = false
       ∧ token granted = t)
  ∧ (∀ origin d,
       d ∈ GetGrantedObjects origin kSerialGrantedDevicesPref (browser_context_ s) →
       ∃ granted,
         CallGrantPortPermission origin granted ∈ cs
         ∧ CanStorePersistentEntry os granted = true
         ∧ d = persistent_value os granted).

End Calls.

Arguments call : clear implicits.
Arguments store_only_adds Origin B {_} kSerialGrantedDevicesPref.
Arguments store_keeps Origin B {_} kSerialGrantedDevicesPref.
Arguments store_well_formed {Origin B _} kSerialGrantedDevicesPref os b.

(** A run on [fresh_context]: two grants, a removal, the loss of the
    connection, and checks in between. *)
Definition sample_calls : list (call string) :=
  [CallGrantPortPermission origin_x widget_port;
   CallGrantPortPermission origin_x tty_port;
   CallOnPortAdded gadget_port;
   CallOnPortRemoved tty_port;
   CallHasPortPermission origin_x tty_port;
   CallGetPortManager;
   CallOnPortManagerConnectionError;
   CallHasPortPermission origin_y widget_port_again].

(** * Properties *)

(** ** Base64: decoding undoes encoding *)

Module Base64Facts.
Import Base64.

Lemma forall_below (P : Z → Prop) `{!∀ s, Decision (P s)} (n : Z) :
  forallb (λ s, bool_decide (P s)) (seqZ 0 n) = true →
  ∀ s, 0 <= s < n → P s.
Proof.
  intros Hall s Hs.
  rewrite forallb_forall in Hall.
  eapply bool_decide_eq_true_1, Hall, list_elem_of_In, elem_of_seqZ. lia.
Qed.

Lemma d_e (s : Z) : 0 <= s < 64 → d (e s) = Some s.
Proof. revert s. apply (forall_below (λ s, d (e s) = Some s)). vm_compute. reflexivity. Qed.

Lemma e_not_pad (s : Z) : e s ≠ CHARPAD.
Proof.
  unfold e. generalize (Z.to_nat s) as n. intros n.
  do 64 (destruct n as [|n]; [by vm_compute|]).
  by vm_compute.
Qed.

Lemma lor_shiftl_add (a k b : Z) :
  0 <= k → 0 <= b < 2 ^ k → Z.lor (a ≪ k) b = a * 2 ^ k + b.
Proof.
  intros Hk Hb. rewrite <- Z.shiftl_mul_pow2 by done.
  symmetry. apply Z.add_nocarry_lor, Z.bits_inj_iff'. intros n Hn.
  rewrite Z.land_spec, Z.bits_0.
  destruct (decide (n < k)).
  - by rewrite Z.shiftl_spec_low.
  - rewrite (proj1 (Z.bounded_iff_bits_nonneg k b Hk (proj1 Hb)) (proj2 Hb) n) by lia.
    apply andb_false_r.
Qed.

Ltac to_arith :=
  change 3 with (Z.ones 2); change 15 with (Z.ones 4); change 63 with (Z.ones 6);
  rewrite ?Z.land_ones by lia;
  rewrite ?Z.shiftr_div_pow2 by lia.

Ltac arith := change (2 ^ 2) with 4 in *; change (2 ^ 4) with 16 in *;
  change (2 ^ 6) with 64 in *; Z.div_mod_to_equations; lia.

Lemma sextet2_arith (t1 t2 : Z) :
  Z.lor (Z.land t1 3 ≪ 4) (Z.land (t2 ≫ 4) 15) = t1 `mod` 4 * 16 + (t2 / 16) `mod` 16.
Proof. to_arith. rewrite lor_shiftl_add by (try apply Z.mod_pos_bound; lia). done. Qed.

Lemma sextet3_arith (t2 t3 : Z) :
  Z.lor (Z.land t2 15 ≪ 2) (Z.land (t3 ≫ 6) 3) = t2 `mod` 16 * 4 + (t3 / 64) `mod` 4.
Proof. to_arith. rewrite lor_shiftl_add by (try apply Z.mod_pos_bound; lia). done. Qed.

Lemma byte1_ok (t1 s2 : Z) :
  byte t1 → 0 <= s2 → s2 / 16 = t1 `mod` 4 → Z.lor ((t1 ≫ 2) ≪ 2) (s2 ≫ 4) = t1.
Proof.
  unfold byte. intros H1 H2 E. to_arith.
  rewrite lor_shiftl_add by arith. arith.
Qed.

Lemma byte2_ok (t2 s2 s3 : Z) :
  byte t2 → 0 <= s3 → s2 `mod` 16 = t2 / 16 → s3 / 4 = t2 `mod` 16 →
  Z.lor (Z.land s2 15 ≪ 4) (s3 ≫ 2) = t2.
Proof.
  unfold byte. intros H1 H2 E2 E3. to_arith.
  rewrite lor_shiftl_add by arith. arith.
Qed.

Lemma byte3_ok (t3 s3 : Z) :
  byte t3 → s3 `mod` 4 = t3 / 64 → Z.lor (Z.land s3 3 ≪ 6) (Z.land t3 63) = t3.
Proof.
  unfold byte. intros H1 E. to_arith.
  rewrite lor_shiftl_add by arith. arith.
Qed.

Lemma sextet1_range (t : Z) : byte t → 0 <= t ≫ 2 < 64.
Proof. unfold byte. intros. to_arith. arith. Qed.

Lemma sextet2_range (t1 t2 : Z) :
  0 <= Z.lor (Z.land t1 3 ≪ 4) (Z.land (t2 ≫ 4) 15) < 64.
Proof. rewrite sextet2_arith. arith. Qed.

Lemma sextet3_range (t2 t3 : Z) :
  0 <= Z.lor (Z.land t2 15 ≪ 2) (Z.land (t3 ≫ 6) 3) < 64.
Proof. rewrite sextet3_arith. arith. Qed.

Lemma sextet4_range (t : Z) : 0 <= Z.land t 63 < 64.
Proof. to_arith. arith. Qed.

Lemma sextet2_last_range (t : Z) : 0 <= Z.land t 3 ≪ 4 < 64.
Proof. to_arith. rewrite Z.shiftl_mul_pow2 by lia. arith. Qed.

Lemma sextet3_last_range (t : Z) : 0 <= Z.land t 15 ≪ 2 < 64.
Proof. to_arith. rewrite Z.shiftl_mul_pow2 by lia. arith. Qed.

Ltac decode_step :=
  rewrite d_e by
    first [ by apply sextet1_range | apply sextet2_range | apply sextet3_range
          | apply sextet4_range | apply sextet2_last_range | apply sextet3_last_range ];
  cbn [mbind option_bind].

Lemma decode_quad (t1 t2 t3 : Z) (rest : list ascii) :
  byte t1 → byte t2 → byte t3 →
  decode_chunks
    (e (t1 ≫ 2)
     :: e (Z.lor (Z.land t1 3 ≪ 4) (Z.land (t2 ≫ 4) 15))
     :: e (Z.lor (Z.land t2 15 ≪ 2) (Z.land (t3 ≫ 6) 3))
     :: e (Z.land t3 63) :: rest)
  = out ← decode_chunks rest; Some (t1 :: t2 :: t3 :: out).
Proof.
  intros H1 H2 H3. cbn [decode_chunks]. do 4 decode_step.
  rewrite (byte1_ok t1), (byte2_ok t2), (byte3_ok t3); try done.
  all: rewrite ?sextet2_arith, ?sextet3_arith; unfold byte in *; arith.
Qed.

Lemma decode_last1 (t1 : Z) :
  byte t1 →
  decode_chunks [e (t1 ≫ 2); e (Z.land t1 3 ≪ 4)] = Some [t1].
Proof.
  intros H1. cbn [decode_chunks]. do 2 decode_step.
  rewrite (byte1_ok t1); try done.
  all: to_arith; rewrite ?Z.shiftl_mul_pow2 by lia; unfold byte in *; arith.
Qed.

Lemma decode_last2 (t1 t2 : Z) :
  byte t1 → byte t2 →
  decode_chunks
    [e (t1 ≫ 2);
     e (Z.lor (Z.land t1 3 ≪ 4) (Z.land (t2 ≫ 4) 15));
     e (Z.land t2 15 ≪ 2)] = Some [t1; t2].
Proof.
  intros H1 H2. cbn [decode_chunks]. do 3 decode_step.
  rewrite (byte1_ok t1), (byte2_ok t2); try done.
  all: rewrite ?sextet2_arith; to_arith; rewrite ?Z.shiftl_mul_pow2 by lia;
    unfold byte in *; arith.
Qed.

Lemma list_ind3 {A : Type} (P : list A → Prop) :
  P [] → (∀ a, P [a]) → (∀ a b, P [a; b]) →
  (∀ a b c l, P l → P (a :: b :: c :: l)) → ∀ l, P l.
Proof.
  intros H0 H1 H2 H3 l.
  cut (P l ∧ (∀ a, P (a :: l)) ∧ (∀ a b, P (a :: b :: l))); [tauto|].
  induction l as [|x l (IH0 & IH1 & IH2)]; auto.
Qed.

Lemma encode_chunks_length (bs : list Z) :
  length (encode_chunks bs) = (4 * ((length bs + 2) / 3))%nat.
Proof.
  induction bs as [| | |t1 t2 t3 rest IH] using list_ind3; try reflexivity.
  cbn [encode_chunks length]. rewrite IH.
  replace (S (S (S (length rest))) + 2)%nat with (length rest + 2 + 1 * 3)%nat by lia.
  rewrite Nat.div_add by lia. lia.
Qed.

Lemma drop_pad_cons (x : ascii) (l : list ascii) :
  l ≠ [] → drop_pad (x :: l) = x :: drop_pad l.
Proof.
  intros Hl. unfold drop_pad. destruct l as [|y l]; [done|].
  change (last (x :: y :: l)) with (last (y :: l)).
  change (removelast (x :: y :: l)) with (x :: removelast (y :: l)).
  destruct (last (y :: l)) as [c|]; [|done]. by destruct (Ascii.eqb c CHARPAD).
Qed.

Lemma drop_pad_length (l : list ascii) :
  (length l - 1 <= length (drop_pad l))%nat.
Proof.
  induction l as [|x l IH]; [done|].
  destruct l as [|y l].
  - unfold drop_pad. cbn. destruct (Ascii.eqb x CHARPAD); cbn; lia.
  - rewrite drop_pad_cons by done. cbn [length] in *. lia.
Qed.

Lemma strip_cons (x : ascii) (l : list ascii) :
  (2 <= length l)%nat →
  drop_pad (drop_pad (x :: l)) = x :: drop_pad (drop_pad l).
Proof.
  intros Hl. pose proof (drop_pad_length l).
  rewrite drop_pad_cons by (intros ->; cbn in Hl; lia).
  rewrite drop_pad_cons; [done|]. intros E. rewrite E in *. cbn in *. lia.
Qed.

Lemma drop_pad_id (l : list ascii) (s : Z) : drop_pad (l ++ [e s]) = l ++ [e s].
Proof.
  unfold drop_pad. rewrite last_snoc.
  destruct (Ascii.eqb_spec (e s) CHARPAD) as [E|]; [|done].
  by destruct (e_not_pad s).
Qed.

Lemma drop_pad_snoc (l : list ascii) : drop_pad (l ++ [CHARPAD]) = l.
Proof. unfold drop_pad. by rewrite last_snoc, removelast_last. Qed.

Lemma strip_last1 (c1 c2 : ascii) :
  drop_pad (drop_pad [c1; c2; CHARPAD; CHARPAD]) = [c1; c2].
Proof.
  change (drop_pad (drop_pad ([c1; c2; CHARPAD] ++ [CHARPAD])) = [c1; c2]).
  rewrite drop_pad_snoc. apply (drop_pad_snoc [c1; c2]).
Qed.

Lemma strip_last2 (c1 c2 : ascii) (s : Z) :
  drop_pad (drop_pad [c1; c2; e s; CHARPAD]) = [c1; c2; e s].
Proof.
  change (drop_pad (drop_pad ([c1; c2; e s] ++ [CHARPAD])) = [c1; c2; e s]).
  rewrite drop_pad_snoc. apply (drop_pad_id [c1; c2]).
Qed.

Lemma strip_quad (c1 c2 c3 : ascii) (s : Z) :
  drop_pad (drop_pad [c1; c2; c3; e s]) = [c1; c2; c3; e s].
Proof.
  change (drop_pad (drop_pad ([c1; c2; c3] ++ [e s])) = [c1; c2; c3] ++ [e s]).
  by rewrite !drop_pad_id.
Qed.

Lemma decode_strip_encode (bs : list Z) :
  Forall byte bs →
  decode_chunks (drop_pad (drop_pad (encode_chunks bs))) = Some bs.
Proof.
  induction bs as [|t1|t1 t2|t1 t2 t3 rest IH] using list_ind3; intros Hbs.
  - done.
  - apply Forall_cons_1 in Hbs as [H1 _]. cbn [encode_chunks].
    rewrite strip_last1. by apply decode_last1.
  - apply Forall_cons_1 in Hbs as [H1 Hbs]. apply Forall_cons_1 in Hbs as [H2 _].
    cbn [encode_chunks].
    rewrite strip_last2. by apply decode_last2.
  - apply Forall_cons_1 in Hbs as [H1 Hbs]. apply Forall_cons_1 in Hbs as [H2 Hbs].
    apply Forall_cons_1 in Hbs as [H3 Hbs].
    cbn [encode_chunks]. destruct rest as [|t4 rest].
    + cbn [encode_chunks]. rewrite strip_quad. by rewrite decode_quad.
    + assert (4 <= length (encode_chunks (t4 :: rest)))%nat as Hlen.
      { rewrite encode_chunks_length. cbn [length].
        pose proof (Nat.div_le_lower_bound (S (length rest) + 2) 3 1). lia. }
      rewrite !strip_cons by (cbn [length]; lia).
      rewrite decode_quad, IH by done. done.
Qed.

Lemma string_of_list_ascii_length (l : list ascii) :
  String.length (string_of_list_ascii l) = length l.
Proof. induction l; cbn; congruence. Qed.

Lemma Base64Encode_length (bs : list Z) :
  String.length (Base64Encode bs) = (4 * ((length bs + 2) / 3))%nat.
Proof. unfold Base64Encode. by rewrite string_of_list_ascii_length, encode_chunks_length. Qed.

Lemma Base64Decode_Encode (bs : list Z) :
  Forall byte bs → Base64Decode (Base64Encode bs) = Some bs.
Proof.
  intros Hbs. unfold Base64Decode, Base64Encode.
  rewrite list_ascii_of_string_of_list_ascii.
  cbv zeta. rewrite encode_chunks_length.
  destruct bs as [|t1 rest]; [done|].
  set (k := ((length (t1 :: rest) + 2) / 3)%nat).
  assert (1 <= k)%nat.
  { subst k. cbn [length]. apply Nat.div_le_lower_bound; lia. }
  replace (4 * k =? 0)%nat with false by (symmetry; apply Nat.eqb_neq; lia).
  replace (4 * k <? 4)%nat with false by (symmetry; apply Nat.ltb_ge; lia).
  replace ((4 * k) `mod` 4 =? 0)%nat with true.
  - by apply decode_strip_encode.
  - symmetry. apply Nat.eqb_eq. rewrite Nat.mul_comm. apply Nat.Div0.mod_mul.
Qed.
End Base64Facts.


(** ** The token codec *)

Section Codec.
Import Base64 Base64Facts.

Lemma token_bytes_length (t : UnguessableToken) : length (token_bytes t) = 16%nat.
Proof.
  unfold token_bytes. rewrite length_app.
  pose proof (length_Z_to_little_endian 8 8 (GetHighForSerialization t)).
  pose proof (length_Z_to_little_endian 8 8 (GetLowForSerialization t)). lia.
Qed.

Lemma token_bytes_byte (t : UnguessableToken) : Forall byte (token_bytes t).
Proof.
  unfold token_bytes. apply Forall_app.
  split; apply (Z_to_little_endian_bound 8 8); lia.
Qed.

Lemma EncodeToken_length (t : UnguessableToken) :
  String.length (EncodeToken t) = 24%nat.
Proof. unfold EncodeToken. by rewrite Base64Encode_length, token_bytes_length. Qed.

Lemma DecodeToken_EncodeToken (t : UnguessableToken) :
  token_in_range t → DecodeToken (EncodeToken t) = t.
Proof.
  destruct t as [high low]. intros [Hh Hl]. unfold uint64 in *. cbn in Hh, Hl.
  unfold DecodeToken, EncodeToken.
  rewrite Base64Decode_Encode by apply token_bytes_byte.
  rewrite token_bytes_length. rewrite bool_decide_eq_false_2 by (intros E; by apply E).
  unfold token_bytes; cbn [GetHighForSerialization GetLowForSerialization].
  assert (length (Z_to_little_endian 8 8 high) = 8%nat) as Hlen.
  { pose proof (length_Z_to_little_endian 8 8 high). lia. }
  rewrite take_app_length', drop_app_length' by done.
  rewrite !little_endian_to_Z_to_little_endian by lia.
  unfold Deserialize. f_equal; apply Z.mod_small; lia.
Qed.

End Codec.

(** ** The eligibility rule *)

Lemma string_empty_false (s : string) : string_empty s = false ↔ s ≠ ""%string.
Proof. unfold string_empty. apply String.eqb_neq. Qed.

Lemma absent_or_empty_false (o : option string) :
  absent_or_empty o = false ↔ present_nonempty o.
Proof.
  unfold present_nonempty. destruct o as [s|]; cbn.
  - rewrite string_empty_false. split; [by eauto|]. by intros (? & [= <-] & ?).
  - split; [done|]. by intros (? & ? & ?).
Qed.

Lemma CanStorePersistentEntry_true (os : platform) (port : SerialPortInfo) :
  CanStorePersistentEntry os port = true ↔
  present_nonempty (display_name port) ∧ stable_identity os port.
Proof.
  unfold CanStorePersistentEntry, stable_identity.
  destruct os; rewrite <- ?absent_or_empty_false, <- ?string_empty_false;
    destruct (absent_or_empty (display_name port)), (has_vendor_id port),
      (has_product_id port), (absent_or_empty (serial_number port)),
      (absent_or_empty (usb_driver_name port)),
      (string_empty (device_instance_id port)); cbn; intuition congruence.
Qed.

(** ** The record serializer *)

Lemma PortInfoToValue_name (port : SerialPortInfo) :
  (if negb (absent_or_empty (display_name port))
   then name ← deref (display_name port);
        mret (SetStringKey kPortNameKey name ∅)
   else mret (SetStringKey kPortNameKey (LossyDisplayName (path port)) ∅))
  = Returns ({[kPortNameKey := StringValue (port_name port)]} : dict).
Proof.
  unfold port_name. destruct (display_name port) as [name|]; cbn; [|done].
  by destruct (string_empty name).
Qed.

Lemma PortInfoToValue_ephemeral (os : platform) (port : SerialPortInfo) :
  CanStorePersistentEntry os port = false →
  PortInfoToValue os port =
  Returns (<[kTokenKey := StringValue (EncodeToken (token port))]>
             {[kPortNameKey := StringValue (port_name port)]}).
Proof.
  intros Hno. unfold PortInfoToValue. rewrite PortInfoToValue_name, Hno. done.
Qed.

Lemma PortInfoToValue_persistent (os : platform) (port : SerialPortInfo) :
  CanStorePersistentEntry os port = true →
  PortInfoToValue os port = Returns (persistent_value os port).
Proof.
  intros Hyes. pose proof Hyes as Hid.
  apply CanStorePersistentEntry_true in Hid as [(name & Hname & Hne) Hid].
  unfold PortInfoToValue. rewrite PortInfoToValue_name, Hyes.
  unfold port_name, persistent_value. rewrite Hname.
  apply string_empty_false in Hne. rewrite Hne. cbn [negb mbind outcome_bind default].
  destruct os; cbn in Hid.
  - done.
  - destruct Hid as (_ & _ & (serial & -> & _) & (driver & -> & _)). done.
  - destruct Hid as (_ & _ & (serial & -> & _)). done.
Qed.

(** The optionals that [PortInfoToValue] dereferences hold a value. *)
Lemma PortInfoToValue_returns (os : platform) (port : SerialPortInfo) :
  ∃ value, PortInfoToValue os port = Returns value.
Proof.
  destruct (CanStorePersistentEntry os port) eqn:Hcan.
  - eexists. by apply PortInfoToValue_persistent.
  - eexists. by apply PortInfoToValue_ephemeral.
Qed.

(** ** The scan of the granted objects *)

Lemma granted_object_matches_returns
  (os : platform) (port : SerialPortInfo) (device : dict) :
  has_compared_keys os device →
  ∃ found, granted_object_matches os port device = Returns found.
Proof.
  unfold has_compared_keys, granted_object_matches.
  destruct os.
  - intros [id ->]. by eexists.
  - intros ([v ->] & [p ->] & [sn ->] & [drv ->]). cbn.
    destruct (_ || _); [by eexists|]. destruct (bool_decide _); by eexists.
  - intros ([v ->] & [p ->] & [sn ->]). cbn.
    destruct (_ || _); by eexists.
Qed.

Lemma scan_granted_objects_cons
  (os : platform) (port : SerialPortInfo) (device : dict) (rest : list dict) :
  granted_object_matches os port device = Returns false →
  scan_granted_objects os port (device :: rest) = scan_granted_objects os port rest.
Proof. intros Hno. cbn [scan_granted_objects]. by rewrite Hno. Qed.

Lemma scan_granted_objects_true
  (os : platform) (port : SerialPortInfo) (object_list : list dict) :
  scan_granted_objects os port object_list = Returns true ↔
  ∃ before device after,
    object_list = before ++ device :: after
    ∧ Forall (λ d, granted_object_matches os port d = Returns false) before
    ∧ granted_object_matches os port device = Returns true.
Proof.
  induction object_list as [|device rest IH]; cbn [scan_granted_objects].
  - split; [done|]. intros (before & ? & ? & E & _). by destruct before.
  - destruct (granted_object_matches os port device) as [[]|] eqn:Hm;
      cbn [mbind outcome_bind].
    + split; [|done]. intros _. by exists [], device, rest.
    + rewrite IH. split.
      * intros (before & d' & after & -> & Hb & Hd).
        exists (device :: before), d', after. split; [done|]. split; [by constructor|done].
      * intros (before & d' & after & E & Hb & Hd).
        destruct before as [|d0 before]; simplify_eq/=; [congruence|].
        apply Forall_cons_1 in Hb as [_ Hb]. by exists before, d', after.
    + split; [done|]. intros (before & d' & after & E & Hb & Hd).
      destruct before as [|d0 before]; simplify_eq/=; [congruence|].
      apply Forall_cons_1 in Hb as [Hd0 _]. congruence.
Qed.

Lemma scan_granted_objects_false
  (os : platform) (port : SerialPortInfo) (object_list : list dict) :
  scan_granted_objects os port object_list = Returns false →
  Forall (λ d, granted_object_matches os port d = Returns false) object_list.
Proof.
  induction object_list as [|device rest IH]; cbn [scan_granted_objects]; [done|].
  destruct (granted_object_matches os port device) as [[]|] eqn:Hm;
    cbn [mbind outcome_bind]; [done| |done].
  intros Hrest. constructor; [done|]. by apply IH.
Qed.

Lemma scan_granted_objects_found
  (os : platform) (port : SerialPortInfo) (object_list : list dict) :
  Forall (has_compared_keys os) object_list →
  ∃ found,
    scan_granted_objects os port object_list = Returns found
    ∧ (found = true ↔
       Exists (λ d, granted_object_matches os port d = Returns true) object_list).
Proof.
  induction 1 as [|device rest Hd _ (found & IH & Hfound)].
  - exists false. split; [done|]. split; [done|]. by intros ?%Exists_nil.
  - destruct (granted_object_matches_returns os port device Hd) as [[] Hm].
    + exists true. cbn [scan_granted_objects]. rewrite Hm. split; [done|].
      split; [|done]. intros _. by apply Exists_cons_hd.
    + exists found. rewrite scan_granted_objects_cons by done. split; [done|].
      rewrite Hfound, Exists_cons. split; [by right|]. intros [E|]; [congruence|done].
Qed.

Lemma persistent_value_has_compared_keys (os : platform) (port : SerialPortInfo) :
  has_compared_keys os (persistent_value os port).
Proof. destruct os; cbn; unfold FindIntKey, FindStringKey; by simplify_map_eq. Qed.

(** A port matches the record that was written for it. *)
Lemma persistent_value_matches (os : platform) (port : SerialPortInfo) :
  CanStorePersistentEntry os port = true →
  granted_object_matches os port (persistent_value os port) = Returns true.
Proof.
  intros Hid. apply CanStorePersistentEntry_true in Hid as [_ Hid].
  unfold granted_object_matches, persistent_value, FindIntKey, FindStringKey.
  destruct os; cbn in Hid.
  - simplify_map_eq. cbn. by rewrite bool_decide_eq_true_2.
  - destruct Hid as (_ & _ & (serial & Hs & _) & (driver & Hd & _)).
    rewrite Hs, Hd. simplify_map_eq. cbn.
    by rewrite !bool_decide_eq_false_2 by (intros E; by apply E).
  - destruct Hid as (_ & _ & (serial & Hs & _)).
    rewrite Hs. simplify_map_eq. cbn.
    by rewrite !bool_decide_eq_false_2 by (intros E; by apply E).
Qed.

(** ** The permission store *)

Section ContextFacts.

Context {Origin : Type} `{Countable Origin}.
Context {B : Type} `{!ObjectPermissionStore Origin B}.
Context {W : Type}.
Variable kSerialGrantedDevicesPref : string.
Variable os : platform.

Abbreviation Ctx := (SerialChooserContext Origin B W).
Abbreviation GetGranted origin s :=
  (GetGrantedObjects origin kSerialGrantedDevicesPref (browser_context_ s)).

Lemma ephemeral_lookup (s : Ctx) (origin : Origin) (t : UnguessableToken) :
  match ephemeral_ports_ s !! origin with
  | Some ports => bool_decide (t ∈ ports)
  | None => false
  end = bool_decide (t ∈ ephemeral_tokens s origin).
Proof.
  unfold ephemeral_tokens. destruct (ephemeral_ports_ s !! origin); cbn; [done|].
  by rewrite bool_decide_eq_false_2 by set_solver.
Qed.

Lemma HasPortPermission_unfold (origin : Origin) (port : SerialPortInfo) (s : Ctx) :
  HasPortPermission kSerialGrantedDevicesPref os origin port s =
  if bool_decide (token port ∈ ephemeral_tokens s origin) then Returns true
  else if CanStorePersistentEntry os port
       then scan_granted_objects os port (GetGranted origin s)
       else Returns false.
Proof.
  unfold HasPortPermission. rewrite ephemeral_lookup.
  by destruct (bool_decide _), (CanStorePersistentEntry os port).
Qed.

Lemma ephemeral_insert_tokens
  (origin o : Origin) (t t' : UnguessableToken) (m : gmap Origin (gset UnguessableToken)) :
  t' ∈ default ∅ (ephemeral_insert origin t m !! o) ↔
  t' ∈ default ∅ (m !! o) ∨ (o = origin ∧ t' = t).
Proof.
  unfold ephemeral_insert. destruct (decide (o = origin)) as [->|Hne].
  - rewrite lookup_insert_eq. cbn. rewrite elem_of_union, elem_of_singleton. tauto.
  - rewrite lookup_insert_ne by done. tauto.
Qed.

Lemma map_insert_new_lookup {V : Type}
  (k k' : UnguessableToken) (v : V) (m : gmap UnguessableToken V) :
  map_insert_new k v m !! k' =
  if decide (k' = k) then Some (default v (m !! k)) else m !! k'.
Proof.
  unfold map_insert_new. case_decide as E; [subst k'|].
  - destruct (m !! k) eqn:Hk; cbn; [done|]. by rewrite lookup_insert_eq.
  - destruct (m !! k); [done|]. by rewrite lookup_insert_ne.
Qed.

Lemma GrantPortPermission_ephemeral (origin : Origin) (port : SerialPortInfo) (s : Ctx) :
  CanStorePersistentEntry os port = false →
  ∃ value,
    PortInfoToValue os port = Returns value
    ∧ GrantPortPermission kSerialGrantedDevicesPref os origin port s =
      Returns (MkContext (browser_context_ s)
                 (map_insert_new (token port) value (port_info_ s))
                 (ephemeral_insert origin (token port) (ephemeral_ports_ s))
                 (port_observer_list_ s) (port_manager_ s) (client_receiver_ s)).
Proof.
  intros Hno. destruct (PortInfoToValue_returns os port) as [value Hv].
  exists value. split; [done|]. unfold GrantPortPermission. by rewrite Hv, Hno.
Qed.

Lemma GrantPortPermission_persistent (origin : Origin) (port : SerialPortInfo) (s : Ctx) :
  CanStorePersistentEntry os port = true →
  ∃ value,
    PortInfoToValue os port = Returns value
    ∧ GrantPortPermission kSerialGrantedDevicesPref os origin port s =
      Returns (MkContext
                 (GrantObjectPermission origin value kSerialGrantedDevicesPref
                    (browser_context_ s))
                 (map_insert_new (token port) value (port_info_ s))
                 (ephemeral_ports_ s)
                 (port_observer_list_ s) (port_manager_ s) (client_receiver_ s)).
Proof.
  intros Hyes. destruct (PortInfoToValue_returns os port) as [value Hv].
  exists value. split; [done|]. unfold GrantPortPermission. by rewrite Hv, Hyes.
Qed.

(** C1, as the code has it. Whenever [HasPortPermission] returns, it returns
    true exactly when the token of the port is in the ephemeral set of the
    origin, or the port can be stored persistently and some record of the
    origin's granted objects matches. The scan is in order and the first
    match decides: the check returns true exactly when the token is in the
    ephemeral set, or the port can be stored persistently and the scan
    reaches a matching record, every record before it having been compared
    without a crash and found different; over records that have the
    compared keys that is again: some record matches. It returns false when
    the port cannot be stored persistently and its token is not in the
    ephemeral set of the origin. *)
Theorem HasPortPermission_spec (origin : Origin) (port : SerialPortInfo) (s : Ctx) :
  (HasPortPermission kSerialGrantedDevicesPref os origin port s = Returns true ↔
     token port ∈ ephemeral_tokens s origin
     ∨ (CanStorePersistentEntry os port = true
        ∧ ∃ before device after,
            GetGranted origin s = before ++ device :: after
            ∧ Forall (λ d, granted_object_matches os port d = Returns false) before
            ∧ granted_object_matches os port device = Returns true))
  ∧ (∀ found,
       HasPortPermission kSerialGrantedDevicesPref os origin port s = Returns found →
       (found = true ↔
          token port ∈ ephemeral_tokens s origin
          ∨ (CanStorePersistentEntry os port = true
             ∧ Exists (λ d, granted_object_matches os port d = Returns true)
                 (GetGranted origin s))))
  ∧ (Forall (has_compared_keys os) (GetGranted origin s) →
     (HasPortPermission kSerialGrantedDevicesPref os origin port s = Returns true ↔
        token port ∈ ephemeral_tokens s origin
        ∨ (CanStorePersistentEntry os port = true
           ∧ Exists (λ d, granted_object_matches os port d = Returns true)
               (GetGranted origin s))))
  ∧ (CanStorePersistentEntry os port = false →
     token port ∉ ephemeral_tokens s origin →
     HasPortPermission kSerialGrantedDevicesPref os origin port s = Returns false).
Proof.
  rewrite HasPortPermission_unfold. split_and!.
  - case_bool_decide as Heph; [by intuition|].
    destruct (CanStorePersistentEntry os port).
    + rewrite scan_granted_objects_true. by intuition.
    + split; [done|]. by intros [|[]].
  - intros found. case_bool_decide as Heph; [intros [= <-]; by intuition|].
    destruct (CanStorePersistentEntry os port).
    + destruct found; intros Hscan.
      * split; [|done]. intros _. right. split; [done|].
        apply scan_granted_objects_true in Hscan
          as (before & device & after & -> & _ & Hmatch).
        apply Exists_app. right. by apply Exists_cons_hd.
      * split; [done|]. intros [|[_ Hex]]; [done|].
        apply scan_granted_objects_false in Hscan.
        apply Exists_exists in Hex as (d & Hin & Hd).
        rewrite Forall_forall in Hscan. specialize (Hscan d Hin). congruence.
    + intros [= <-]. split; [done|]. by intros [|[]].
  - intros Hkeys. case_bool_decide as Heph; [by intuition|].
    destruct (CanStorePersistentEntry os port).
    + destruct (scan_granted_objects_found os port _ Hkeys) as (found & -> & Hfound).
      split.
      * intros [= ->]. right. split; [done|]. by apply Hfound.
      * intros [|[_ Hex]]; [done|]. f_equal. by apply Hfound.
    + split; [done|]. by intros [|[]].
  - intros -> Heph. by rewrite bool_decide_eq_false_2.
Qed.

(** C3. [GrantPortPermission] returns; afterwards the token of the port is a
    key of [port_info_] (bound to the record of the port unless the key was
    already there) and no other key changed; and exactly one kind of grant
    was written: for a port that can be stored persistently one call of
    [GrantObjectPermission] for the origin with the ephemeral sets untouched,
    otherwise the token added to the ephemeral set of the origin with the
    store untouched. *)
Theorem GrantPortPermission_spec (origin : Origin) (port : SerialPortInfo) (s : Ctx) :
  ∃ value s',
    PortInfoToValue os port = Returns value
    ∧ GrantPortPermission kSerialGrantedDevicesPref os origin port s = Returns s'
    ∧ port_info_ s' !! token port = Some (default value (port_info_ s !! token port))
    ∧ (∀ t, t ≠ token port → port_info_ s' !! t = port_info_ s !! t)
    ∧ ((CanStorePersistentEntry os port = true
        ∧ browser_context_ s' =
          GrantObjectPermission origin value kSerialGrantedDevicesPref (browser_context_ s)
        ∧ ephemeral_ports_ s' = ephemeral_ports_ s)
       ∨ (CanStorePersistentEntry os port = false
          ∧ browser_context_ s' = browser_context_ s
          ∧ ∀ o t, t ∈ ephemeral_tokens s' o ↔
                   t ∈ ephemeral_tokens s o ∨ (o = origin ∧ t = token port))).
Proof.
  destruct (CanStorePersistentEntry os port) eqn:Hcan.
  - destruct (GrantPortPermission_persistent origin port s Hcan) as (value & Hv & Hg).
    eexists _, _. split; [exact Hv|]. split; [exact Hg|]. cbn.
    split_and!; [| |by left].
    + by rewrite map_insert_new_lookup, decide_True.
    + intros t Ht. by rewrite map_insert_new_lookup, decide_False.
  - destruct (GrantPortPermission_ephemeral origin port s Hcan) as (value & Hv & Hg).
    eexists _, _. split; [exact Hv|]. split; [exact Hg|]. cbn.
    split_and!.
    + by rewrite map_insert_new_lookup, decide_True.
    + intros t Ht. by rewrite map_insert_new_lookup, decide_False.
    + right. split_and!; [done..|]. intros o t. apply ephemeral_insert_tokens.
Qed.

(** C4. After [OnPortManagerConnectionError] the map [port_info_] and the
    whole of [ephemeral_ports_] are empty and the store of granted objects is
    the one before; so a port that can only be granted ephemerally is no
    longer permitted for any origin, and a check that still succeeds does so
    through a granted object of the store. *)
Theorem OnPortManagerConnectionError_spec (s : Ctx) :
  port_info_ (OnPortManagerConnectionError s) = ∅
  ∧ ephemeral_ports_ (OnPortManagerConnectionError s) = ∅
  ∧ browser_context_ (OnPortManagerConnectionError s) = browser_context_ s
  ∧ (∀ origin port,
       CanStorePersistentEntry os port = false →
       HasPortPermission kSerialGrantedDevicesPref os origin port
         (OnPortManagerConnectionError s) = Returns false)
  ∧ (∀ origin port,
       HasPortPermission kSerialGrantedDevicesPref os origin port
         (OnPortManagerConnectionError s) = Returns true →
       CanStorePersistentEntry os port = true
       ∧ scan_granted_objects os port (GetGranted origin s) = Returns true).
Proof.
  split_and!; [done..| |]; intros origin port; rewrite HasPortPermission_unfold;
    unfold ephemeral_tokens; cbn; rewrite lookup_empty; cbn;
    rewrite bool_decide_eq_false_2 by apply not_elem_of_empty.
  - by intros ->.
  - by destruct (CanStorePersistentEntry os port).
Qed.

(** C10. Granting a port that cannot be stored persistently to one origin
    does not change the answer of [HasPortPermission] for any other origin
    and any port. *)
Theorem ephemeral_grant_isolated
  (origin_a origin_b : Origin) (port port' : SerialPortInfo) (s : Ctx) :
  origin_a ≠ origin_b →
  CanStorePersistentEntry os port = false →
  ∃ s',
    GrantPortPermission kSerialGrantedDevicesPref os origin_a port s = Returns s'
    ∧ HasPortPermission kSerialGrantedDevicesPref os origin_b port' s' =
      HasPortPermission kSerialGrantedDevicesPref os origin_b port' s.
Proof.
  intros Hne Hno.
  destruct (GrantPortPermission_ephemeral origin_a port s Hno) as (value & _ & Hg).
  eexists. split; [exact Hg|]. unfold HasPortPermission. cbn.
  unfold ephemeral_insert. by rewrite lookup_insert_ne.
Qed.

(** C8, as the code has it. [OnPortAdded] calls the [OnPortAdded] callback of
    every observer, in the order of the list, and leaves the context as it
    is: it adds nothing to [port_info_]. [OnPortRemoved] calls the
    [OnPortRemoved] callback of every observer and then erases the token of
    the port from [port_info_]; the ephemeral sets, the store of granted
    objects and the observers stay as they were. *)
Theorem OnPortAdded_OnPortRemoved_spec (port : SerialPortInfo) (s : Ctx) (w : W) :
  OnPortAdded port s w =
    (s, foldl (λ w observer, observer_OnPortAdded observer port w) w
          (port_observer_list_ s))
  ∧ ∃ s',
      OnPortRemoved port s w =
        (s', foldl (λ w observer, observer_OnPortRemoved observer port w) w
               (port_observer_list_ s))
      ∧ port_info_ s' = delete (token port) (port_info_ s)
      ∧ ephemeral_ports_ s' = ephemeral_ports_ s
      ∧ browser_context_ s' = browser_context_ s
      ∧ port_observer_list_ s' = port_observer_list_ s.
Proof. split; [done|]. by eexists. Qed.

(** X1. A port that cannot be stored persistently is permitted for the origin
    it was just granted to. *)
Theorem ephemeral_grant_then_check (origin : Origin) (port : SerialPortInfo) (s : Ctx) :
  CanStorePersistentEntry os port = false →
  ∃ s',
    GrantPortPermission kSerialGrantedDevicesPref os origin port s = Returns s'
    ∧ HasPortPermission kSerialGrantedDevicesPref os origin port s' = Returns true.
Proof.
  intros Hno.
  destruct (GrantPortPermission_ephemeral origin port s Hno) as (value & _ & Hg).
  eexists. split; [exact Hg|]. rewrite HasPortPermission_unfold.
  rewrite bool_decide_eq_true_2; [done|].
  unfold ephemeral_tokens. cbn [ephemeral_ports_].
  apply ephemeral_insert_tokens. by right.
Qed.

End ContextFacts.

(** C5, as the code has it. The scan reads the keys it compares without
    testing that they are there. Every record that [PortInfoToValue] builds
    for a port with a stable identity has them; and over records that have
    them the scan returns, without a crash, and returns true exactly when
    some record matches: a record that differs is skipped. *)
Theorem scan_granted_objects_well_formed (os : platform) :
  (∀ port,
     CanStorePersistentEntry os port = true →
     ∃ value, PortInfoToValue os port = Returns value ∧ has_compared_keys os value)
  ∧ (∀ port object_list,
       Forall (has_compared_keys os) object_list →
       ∃ found,
         scan_granted_objects os port object_list = Returns found
         ∧ (found = true ↔
            Exists (λ d, granted_object_matches os port d = Returns true) object_list)).
Proof.
  split.
  - intros port Hcan. exists (persistent_value os port).
    split; [by apply PortInfoToValue_persistent|apply persistent_value_has_compared_keys].
  - intros port object_list. apply scan_granted_objects_found.
Qed.


(** X2. The record written for a port with a stable identity is compared
    without a crash with any port, and matches exactly the ports that show
    the same identity, whatever their token: the same device instance id on
    Windows; the same vendor id, product id and serial number elsewhere, and
    on macOS the same driver name as well. *)
Theorem granted_object_matches_same_identity
  (os : platform) (granted port : SerialPortInfo) :
  CanStorePersistentEntry os granted = true →
  ∃ value found,
    PortInfoToValue os granted = Returns value
    ∧ granted_object_matches os port value = Returns found
    ∧ (found = true ↔ same_identity os granted port).
Proof.
  intros Hcan. exists (persistent_value os granted).
  rewrite PortInfoToValue_persistent by done.
  apply CanStorePersistentEntry_true in Hcan as [_ Hid].
  unfold granted_object_matches, persistent_value, same_identity,
    FindIntKey, FindStringKey.
  destruct os; cbn in Hid.
  - simplify_map_eq. eexists. split_and!; [done..|]. apply bool_decide_eq_true.
  - destruct Hid as (_ & _ & (serial & Hs & _) & (driver & Hd & _)).
    rewrite Hs, Hd. simplify_map_eq. cbn.
    repeat case_bool_decide; cbn; eexists; (split_and!; [done..|]);
      repeat match goal with E : ¬ _ ≠ _ |- _ => apply dec_stable in E end;
      intuition congruence.
  - destruct Hid as (_ & _ & (serial & Hs & _)).
    rewrite Hs. simplify_map_eq. cbn.
    repeat case_bool_decide; cbn; eexists; (split_and!; [done..|]);
      repeat match goal with E : ¬ _ ≠ _ |- _ => apply dec_stable in E end;
      intuition congruence.
Qed.

(** C2. [CanStorePersistentEntry] is false when the display name is absent or
    empty. It is true exactly when the display name is there and not empty
    and, on Windows, the device instance id is not empty; elsewhere, vendor
    id and product id are there and the serial number is there and not
    empty, and on macOS the driver name is there and not empty as well. *)
Theorem CanStorePersistentEntry_spec (os : platform) (port : SerialPortInfo) :
  (display_name port = None ∨ display_name port = Some ""%string →
     CanStorePersistentEntry os port = false)
  ∧ (CanStorePersistentEntry os port = true ↔
       present_nonempty (display_name port)
       ∧ match os with
         | OS_WIN => device_instance_id port ≠ ""%string
         | OS_MAC =>
             has_vendor_id port = true ∧ has_product_id port = true
             ∧ present_nonempty (serial_number port)
             ∧ present_nonempty (usb_driver_name port)
         | OS_OTHER =>
             has_vendor_id port = true ∧ has_product_id port = true
             ∧ present_nonempty (serial_number port)
         end).
Proof.
  split.
  - intros Hname. unfold CanStorePersistentEntry. by destruct Hname as [->| ->].
  - apply CanStorePersistentEntry_true.
Qed.

(** C9, as the code has it. For a port that cannot be stored persistently
    [PortInfoToValue] gives the name (the display name, or the path when
    that is absent or empty) and the encoded token, and nothing else. For a port that
    can, it gives the display name and the identity of the platform: the
    device instance id on Windows; vendor id, product id and serial number
    elsewhere, and the driver name too on macOS; and no token. *)
Theorem PortInfoToValue_spec (os : platform) (port : SerialPortInfo) :
  (CanStorePersistentEntry os port = false →
     PortInfoToValue os port =
     Returns (<[kTokenKey := StringValue (EncodeToken (token port))]>
                {[kPortNameKey := StringValue (port_name port)]}))
  ∧ (CanStorePersistentEntry os port = true →
     ∃ value,
       PortInfoToValue os port = Returns value
       ∧ value !! kPortNameKey = StringValue <$> display_name port
       ∧ value !! kTokenKey = None
       ∧ match os with
         | OS_WIN =>
             value !! kDeviceInstanceIdKey = Some (StringValue (device_instance_id port))
             ∧ dom value = {[kPortNameKey; kDeviceInstanceIdKey]}
         | OS_MAC =>
             value !! kVendorIdKey = Some (IntValue (vendor_id port))
             ∧ value !! kProductIdKey = Some (IntValue (product_id port))
             ∧ value !! kSerialNumberKey = StringValue <$> serial_number port
             ∧ value !! kUsbDriverKey = StringValue <$> usb_driver_name port
             ∧ dom value = {[kPortNameKey; kVendorIdKey; kProductIdKey;
                             kSerialNumberKey; kUsbDriverKey]}
         | OS_OTHER =>
             value !! kVendorIdKey = Some (IntValue (vendor_id port))
             ∧ value !! kProductIdKey = Some (IntValue (product_id port))
             ∧ value !! kSerialNumberKey = StringValue <$> serial_number port
             ∧ dom value = {[kPortNameKey; kVendorIdKey; kProductIdKey;
                             kSerialNumberKey]}
         end).
Proof.
  split; [apply PortInfoToValue_ephemeral|].
  intros Hcan. exists (persistent_value os port).
  split; [by apply PortInfoToValue_persistent|].
  apply CanStorePersistentEntry_true in Hcan as [(name & Hname & _) Hid].
  unfold persistent_value. rewrite Hname.
  destruct os; cbn in Hid.
  - split_and!; [by simplify_map_eq..|]. rewrite dom_insert_L, dom_singleton_L. set_solver.
  - destruct Hid as (_ & _ & (serial & -> & _) & (driver & -> & _)).
    split_and!; [by simplify_map_eq..|].
    rewrite !dom_insert_L, dom_singleton_L. set_solver.
  - destruct Hid as (_ & _ & (serial & -> & _)).
    split_and!; [by simplify_map_eq..|].
    rewrite !dom_insert_L, dom_singleton_L. set_solver.
Qed.

(** C6. Decoding the encoding of a token whose halves are 64-bit values gives
    the token back, and the encoding is 24 characters long whatever the
    token. *)
Theorem DecodeToken_EncodeToken_roundtrip (t : UnguessableToken) :
  token_in_range t →
  DecodeToken (EncodeToken t) = t ∧ String.length (EncodeToken t) = 24%nat.
Proof.
  intros Ht. split; [by apply DecodeToken_EncodeToken|apply EncodeToken_length].
Qed.

(** C7, as the code has it. On text that is not well-formed base64, or that
    decodes to a number of bytes other than 16, [DecodeToken] returns the
    default-constructed token. That token is the one with both halves zero,
    the empty token: the result does not tell a failed decoding from the
    decoding of sixteen zero bytes. *)
Theorem DecodeToken_malformed (input : string) :
  (Base64.Base64Decode input = None
   ∨ ∃ buffer, Base64.Base64Decode input = Some buffer ∧ length buffer ≠ 16%nat) →
  DecodeToken input = UnguessableToken_default
  ∧ DecodeToken input = Deserialize 0 0
  ∧ is_empty (DecodeToken input) = true.
Proof.
  intros Hbad.
  assert (DecodeToken input = UnguessableToken_default) as ->; [|done].
  unfold DecodeToken. destruct Hbad as [->|(buffer & -> & Hlen)]; [done|].
  by rewrite bool_decide_eq_true_2.
Qed.

(** ** The statements at the sample ports *)

Lemma HasPortPermission_spec_witness :
  HasPortPermission sample_pref OS_OTHER origin_x widget_port_again context_with_widget
  = Returns true
  ∧ HasPortPermission sample_pref OS_OTHER origin_x tty_port context_with_widget
    = Returns false.
Proof.
  split.
  - apply (proj1 (HasPortPermission_spec sample_pref OS_OTHER origin_x
                    widget_port_again context_with_widget)).
    right. split; [reflexivity|].
    exists [], (persistent_value OS_OTHER widget_port), [].
    split_and!; [vm_compute; reflexivity|constructor|vm_compute; reflexivity].
  - apply (proj2 (proj2 (proj2 (HasPortPermission_spec sample_pref OS_OTHER
                                  origin_x tty_port context_with_widget))));
      [reflexivity|].
    unfold ephemeral_tokens, context_with_widget. cbn [ephemeral_ports_].
    rewrite lookup_empty. apply not_elem_of_empty.
Defined.

Lemma CanStorePersistentEntry_spec_witness :
  CanStorePersistentEntry OS_OTHER widget_port = true
  ∧ CanStorePersistentEntry OS_MAC widget_port = false
  ∧ CanStorePersistentEntry OS_OTHER tty_port = false.
Proof.
  split_and!.
  - apply (proj2 (CanStorePersistentEntry_spec OS_OTHER widget_port)).
    split; [by exists "Widget Adapter"%string|].
    split_and!; [reflexivity..|by exists "ABC123"%string].
  - reflexivity.
  - apply (proj1 (CanStorePersistentEntry_spec OS_OTHER tty_port)). by left.
Defined.

Lemma OnPortManagerConnectionError_spec_witness :
  GrantPortPermission sample_pref OS_OTHER origin_x tty_port fresh_context
  = Returns context_with_tty
  ∧ HasPortPermission sample_pref OS_OTHER origin_x tty_port context_with_tty
    = Returns true
  ∧ HasPortPermission sample_pref OS_OTHER origin_x tty_port
      (OnPortManagerConnectionError context_with_tty) = Returns false.
Proof.
  split_and!; [vm_compute; reflexivity..|].
  apply OnPortManagerConnectionError_spec. reflexivity.
Defined.

Lemma scan_granted_objects_well_formed_witness :
  ∃ found,
    scan_granted_objects OS_OTHER widget_port_again
      [persistent_value OS_OTHER gadget_port; persistent_value OS_OTHER widget_port]
    = Returns found
    ∧ (found = true ↔
       Exists (λ d, granted_object_matches OS_OTHER widget_port_again d = Returns true)
         [persistent_value OS_OTHER gadget_port; persistent_value OS_OTHER widget_port]).
Proof.
  apply (proj2 (scan_granted_objects_well_formed OS_OTHER)).
  repeat (apply List.Forall_cons; [apply persistent_value_has_compared_keys|]).
  apply List.Forall_nil.
Defined.

Lemma DecodeToken_EncodeToken_roundtrip_witness :
  token_in_range (MkToken 1 2)
  ∧ DecodeToken (EncodeToken (MkToken 1 2)) = MkToken 1 2
  ∧ String.length (EncodeToken (MkToken 1 2)) = 24%nat.
Proof.
  assert (token_in_range (MkToken 1 2)) as Ht by (repeat split; by vm_compute).
  split; [exact Ht|]. exact (DecodeToken_EncodeToken_roundtrip (MkToken 1 2) Ht).
Defined.

Lemma DecodeToken_malformed_witness :
  Base64.Base64Decode "@@@@" = None
  ∧ DecodeToken "@@@@" = UnguessableToken_default
  ∧ DecodeToken "@@@@" = Deserialize 0 0
  ∧ is_empty (DecodeToken "@@@@") = true.
Proof.
  split; [by vm_compute|]. apply DecodeToken_malformed. left. by vm_compute.
Defined.

Lemma PortInfoToValue_spec_witness :
  PortInfoToValue OS_OTHER tty_port =
  Returns (<[kTokenKey := StringValue "AQAAAAAAAAACAAAAAAAAAA=="]>
             {[kPortNameKey := StringValue "/dev/ttyUSB0"]}).
Proof.
  exact (proj1 (PortInfoToValue_spec OS_OTHER tty_port) eq_refl).
Defined.

Lemma ephemeral_grant_isolated_witness :
  origin_x ≠ origin_y
  ∧ CanStorePersistentEntry OS_OTHER tty_port = false
  ∧ ∃ s',
      GrantPortPermission sample_pref OS_OTHER origin_x tty_port fresh_context = Returns s'
      ∧ HasPortPermission sample_pref OS_OTHER origin_y tty_port s' =
        HasPortPermission sample_pref OS_OTHER origin_y tty_port fresh_context.
Proof.
  assert (origin_x ≠ origin_y) as Hne by discriminate.
  split; [exact Hne|]. split; [reflexivity|].
  exact (ephemeral_grant_isolated sample_pref OS_OTHER origin_x origin_y
           tty_port tty_port fresh_context Hne eq_refl).
Defined.

Lemma ephemeral_grant_then_check_witness :
  CanStorePersistentEntry OS_MAC widget_port = false
  ∧ ∃ s',
      GrantPortPermission sample_pref OS_MAC origin_x widget_port fresh_context
      = Returns s'
      ∧ HasPortPermission sample_pref OS_MAC origin_x widget_port s' = Returns true.
Proof.
  split; [reflexivity|].
  exact (ephemeral_grant_then_check sample_pref OS_MAC origin_x widget_port
           fresh_context eq_refl).
Defined.

Lemma granted_object_matches_same_identity_witness :
  CanStorePersistentEntry OS_OTHER widget_port = true
  ∧ ∃ value found,
      PortInfoToValue OS_OTHER widget_port = Returns value
      ∧ granted_object_matches OS_OTHER gadget_port value = Returns found
      ∧ (found = true ↔ same_identity OS_OTHER widget_port gadget_port).
Proof.
  split; [reflexivity|].
  exact (granted_object_matches_same_identity OS_OTHER widget_port gadget_port eq_refl).
Defined.

Example EncodeToken_sample :
  EncodeToken (MkToken 1 2) = "AQAAAAAAAAACAAAAAAAAAA=="%string
  ∧ EncodeToken (MkToken 81985529216486895 18364758544493064720)
    = "782riWdFIwEQMlR2mLrc/g=="%string.
Proof. split; by vm_compute. Qed.

Example DecodeToken_sample :
  DecodeToken "782riWdFIwEQMlR2mLrc/g=="
  = MkToken 81985529216486895 18364758544493064720.
Proof. by vm_compute. Qed.

(** A grant to [origin_x] that survives the loss of the connection and is
    found again under a new token, and not for [origin_y] or another device. *)
Example durable_grant_survives :
  let after_loss :=
    s ← GrantPortPermission sample_pref OS_OTHER origin_x widget_port fresh_context;
    mret (OnPortManagerConnectionError s) in
  (after_loss ≫= HasPortPermission sample_pref OS_OTHER origin_x widget_port_again)
  = Returns true
  ∧ (after_loss ≫= HasPortPermission sample_pref OS_OTHER origin_y widget_port_again)
    = Returns false
  ∧ (after_loss ≫= HasPortPermission sample_pref OS_OTHER origin_x gadget_port)
    = Returns false.
Proof. split_and!; vm_compute; reflexivity. Qed.

(** ** Where the code differs from what was claimed *)

(** Against C1 as claimed: the port can be stored persistently and a record
    of the origin's granted objects matches it, yet [HasPortPermission] does
    not return true. The record before the matching one lacks the compared
    keys, and the scan gets no further. *)
Lemma HasPortPermission_match_behind_foreign_record :
  ¬ (HasPortPermission sample_pref OS_OTHER origin_x widget_port
       context_with_foreign_record = Returns true
     ↔ token widget_port ∈ ephemeral_tokens context_with_foreign_record origin_x
       ∨ (CanStorePersistentEntry OS_OTHER widget_port = true
          ∧ Exists (λ d, granted_object_matches OS_OTHER widget_port d = Returns true)
              (GetGrantedObjects origin_x sample_pref
                 (browser_context_ context_with_foreign_record)))).
Proof.
  intros [_ Hback].
  assert (HasPortPermission sample_pref OS_OTHER origin_x widget_port
            context_with_foreign_record = Crash) as Hcrash by (by vm_compute).
  rewrite Hcrash in Hback. enough (@Crash bool = Returns true) by done.
  apply Hback. right. split; [reflexivity|].
  assert (GetGrantedObjects origin_x sample_pref
            (browser_context_ context_with_foreign_record)
          = [foreign_record; persistent_value OS_OTHER widget_port]) as ->
    by (vm_compute; reflexivity).
  apply Exists_cons_tl, Exists_cons_hd. by vm_compute.
Qed.

(** Against C5 as claimed: a stored record without the compared keys is not
    skipped. The comparison dereferences the failed lookup, and so does the
    scan and [HasPortPermission], although the next record would match. *)
Lemma granted_object_missing_key_crashes :
  ¬ has_compared_keys OS_OTHER foreign_record
  ∧ granted_object_matches OS_OTHER widget_port foreign_record = Crash
  ∧ granted_object_matches OS_OTHER widget_port (persistent_value OS_OTHER widget_port)
    = Returns true
  ∧ HasPortPermission sample_pref OS_OTHER origin_x widget_port
      context_with_foreign_record = Crash.
Proof.
  split_and!; [|by vm_compute..].
  intros ([vendor Hvendor] & _). vm_compute in Hvendor. discriminate.
Qed.

(** Against C7 as claimed: the text that encodes the token with both halves
    zero is well-formed and sixteen bytes long, and it decodes to the very
    token that a failed decoding returns. *)
Lemma DecodeToken_zero_token_is_sentinel :
  EncodeToken (MkToken 0 0) = "AAAAAAAAAAAAAAAAAAAAAA=="%string
  ∧ Base64.Base64Decode "AAAAAAAAAAAAAAAAAAAAAA==" = Some (replicate 16 0)
  ∧ Base64.Base64Decode "@@@@" = None
  ∧ DecodeToken "AAAAAAAAAAAAAAAAAAAAAA==" = DecodeToken "@@@@".
Proof. split_and!; by vm_compute. Qed.

(** Against C8 as claimed: after [OnPortAdded] the port is not in
    [port_info_]; the context is the one before. *)
Lemma OnPortAdded_leaves_port_info :
  (OnPortAdded tty_port fresh_context []).1 = fresh_context
  ∧ port_info_ (OnPortAdded tty_port fresh_context []).1 !! token tty_port = None
  ∧ (OnPortAdded tty_port fresh_context []).2
    = [PortAdded 0 tty_port; PortAdded 1 tty_port].
Proof. split_and!; by vm_compute. Qed.

(** Against C9 as claimed: the record of a port that cannot be stored
    persistently has a name besides the token. *)
Lemma PortInfoToValue_ephemeral_has_name :
  CanStorePersistentEntry OS_OTHER tty_port = false
  ∧ ∃ value,
      PortInfoToValue OS_OTHER tty_port = Returns value
      ∧ value !! kPortNameKey = Some (StringValue "/dev/ttyUSB0")
      ∧ value ≠ {[kTokenKey := StringValue (EncodeToken (token tty_port))]}.
Proof.
  split; [reflexivity|]. eexists. split; [reflexivity|]. split; [by vm_compute|].
  intros E. apply (f_equal (λ m : dict, m !! kPortNameKey)) in E.
  vm_compute in E. discriminate.
Qed.

(** * Further properties *)

(** ** The codec and the record of a port that is not stored *)

(** X3. Tokens with different halves have different encodings: the text of a
    token determines the token. *)
Theorem EncodeToken_injective (t1 t2 : UnguessableToken) :
  token_in_range t1 → token_in_range t2 →
  EncodeToken t1 = EncodeToken t2 → t1 = t2.
Proof.
  intros H1 H2 E.
  rewrite <- (DecodeToken_EncodeToken t1 H1), <- (DecodeToken_EncodeToken t2 H2).
  by rewrite E.
Qed.

(** X4. The record of a port that cannot be stored persistently names its
    token: decoding the text under the token key gives the token of the
    port back. *)
Theorem PortInfoToValue_token_roundtrip (os : platform) (port : SerialPortInfo) :
  CanStorePersistentEntry os port = false →
  token_in_range (token port) →
  ∃ value encoded,
    PortInfoToValue os port = Returns value
    ∧ FindStringKey kTokenKey value = Some encoded
    ∧ DecodeToken encoded = token port.
Proof.
  intros Hno Hrange. eexists _, (EncodeToken (token port)).
  split; [by apply PortInfoToValue_ephemeral|].
  split; [|by apply DecodeToken_EncodeToken].
  unfold FindStringKey. by rewrite lookup_insert_eq.
Qed.

(** ** Grants for the session *)

Section EphemeralFacts.

Context {Origin : Type} `{Countable Origin}.
Context {B : Type} `{!ObjectPermissionStore Origin B}.
Context {W : Type}.
Variable kSerialGrantedDevicesPref : string.
Variable os : platform.

Abbreviation Ctx := (SerialChooserContext Origin B W).

Lemma map_insert_new_idemp {V : Type}
  (k : UnguessableToken) (v : V) (m : gmap UnguessableToken V) :
  map_insert_new k v (map_insert_new k v m) = map_insert_new k v m.
Proof.
  unfold map_insert_new. destruct (m !! k) eqn:Hk.
  - by rewrite Hk.
  - by rewrite lookup_insert_eq.
Qed.

Lemma ephemeral_insert_idemp
  (origin : Origin) (t : UnguessableToken) (m : gmap Origin (gset UnguessableToken)) :
  ephemeral_insert origin t (ephemeral_insert origin t m) = ephemeral_insert origin t m.
Proof.
  unfold ephemeral_insert. rewrite lookup_insert_eq, insert_insert_eq. cbn.
  by rewrite (assoc_L (∪)), (idemp_L (∪)).
Qed.

(** X5. Granting a port that cannot be stored persistently a second time to
    the same origin changes nothing: the context after the second grant is
    the context after the first. *)
Theorem GrantPortPermission_ephemeral_idempotent
  (origin : Origin) (port : SerialPortInfo) (s : Ctx) :
  CanStorePersistentEntry os port = false →
  ∃ s',
    GrantPortPermission kSerialGrantedDevicesPref os origin port s = Returns s'
    ∧ GrantPortPermission kSerialGrantedDevicesPref os origin port s' = Returns s'.
Proof.
  intros Hno.
  destruct (GrantPortPermission_ephemeral kSerialGrantedDevicesPref os origin port s Hno)
    as (value & Hv & Hg).
  eexists. split; [exact Hg|].
  destruct (GrantPortPermission_ephemeral kSerialGrantedDevicesPref os origin port
              (MkContext (browser_context_ s)
                 (map_insert_new (token port) value (port_info_ s))
                 (ephemeral_insert origin (token port) (ephemeral_ports_ s))
                 (port_observer_list_ s) (port_manager_ s) (client_receiver_ s)) Hno)
    as (value' & Hv' & ->).
  assert (value' = value) as -> by congruence. cbn.
  by rewrite map_insert_new_idemp, ephemeral_insert_idemp.
Qed.

(** X6. Granting a port that cannot be stored persistently to an origin
    changes the answer of [HasPortPermission] for no other origin and for no
    port with another token. *)
Theorem ephemeral_grant_only_for_token
  (origin : Origin) (port : SerialPortInfo) (s : Ctx) :
  CanStorePersistentEntry os port = false →
  ∃ s',
    GrantPortPermission kSerialGrantedDevicesPref os origin port s = Returns s'
    ∧ ∀ origin' port',
        ¬ (origin' = origin ∧ token port' = token port) →
        HasPortPermission kSerialGrantedDevicesPref os origin' port' s' =
        HasPortPermission kSerialGrantedDevicesPref os origin' port' s.
Proof.
  intros Hno.
  destruct (GrantPortPermission_ephemeral kSerialGrantedDevicesPref os origin port s Hno)
    as (value & _ & Hg).
  eexists. split; [exact Hg|]. intros origin' port' Hother.
  rewrite !HasPortPermission_unfold. cbn [browser_context_].
  rewrite (bool_decide_ext _ (token port' ∈ ephemeral_tokens s origin')); [done|].
  unfold ephemeral_tokens. cbn [ephemeral_ports_].
  rewrite ephemeral_insert_tokens. tauto.
Qed.

End EphemeralFacts.

(** ** Observers *)

Lemma notify_added_logging
  (ids : list nat) (port : SerialPortInfo) (log : list PortEvent) :
  notify_added port (logging_observer <$> ids) log
  = log ++ ((λ n, PortAdded n port) <$> ids).
Proof.
  revert log. induction ids as [|n ids IH]; intros log; cbn.
  - by rewrite app_nil_r.
  - unfold notify_added in IH. rewrite IH. by rewrite <- app_assoc.
Qed.

Lemma notify_removed_logging
  (ids : list nat) (port : SerialPortInfo) (log : list PortEvent) :
  notify_removed port (logging_observer <$> ids) log
  = log ++ ((λ n, PortRemoved n port) <$> ids).
Proof.
  revert log. induction ids as [|n ids IH]; intros log; cbn.
  - by rewrite app_nil_r.
  - unfold notify_removed in IH. rewrite IH. by rewrite <- app_assoc.
Qed.

(** X7. Every observer of the list is told of an added or removed port
    exactly once, with that port, in the order of the list; observers that
    record what they are told end up with one entry each, after what they
    had recorded before. *)
Theorem observers_notified_once_in_order
  {Origin : Type} `{Countable Origin} {B : Type}
  (ids : list nat) (port : SerialPortInfo)
  (s : SerialChooserContext Origin B (list PortEvent)) (log : list PortEvent) :
  port_observer_list_ s = logging_observer <$> ids →
  (OnPortAdded port s log).2 = log ++ ((λ n, PortAdded n port) <$> ids)
  ∧ (OnPortRemoved port s log).2 = log ++ ((λ n, PortRemoved n port) <$> ids).
Proof.
  intros Hobs. unfold OnPortAdded, OnPortRemoved. cbn [snd]. rewrite Hobs.
  split; [apply notify_added_logging|apply notify_removed_logging].
Qed.

(** ** Runs of calls *)

Lemma persistent_value_matches_iff (os : platform) (granted port : SerialPortInfo) :
  CanStorePersistentEntry os granted = true →
  granted_object_matches os port (persistent_value os granted) = Returns true
  ↔ same_identity os granted port.
Proof.
  intros Hcan. apply CanStorePersistentEntry_true in Hcan as [_ Hid].
  unfold granted_object_matches, persistent_value, same_identity,
    FindIntKey, FindStringKey.
  destruct os; cbn in Hid.
  - simplify_map_eq. cbn. split.
    + by intros [= E%bool_decide_eq_true].
    + intros E. by rewrite bool_decide_eq_true_2.
  - destruct Hid as (_ & _ & (serial & Hs & _) & (driver & Hd & _)).
    rewrite Hs, Hd. simplify_map_eq. cbn.
    repeat case_bool_decide; cbn; unfold mret, outcome_ret;
      repeat match goal with E : ¬ _ ≠ _ |- _ => apply dec_stable in E end;
      intuition congruence.
  - destruct Hid as (_ & _ & (serial & Hs & _)).
    rewrite Hs. simplify_map_eq. cbn.
    repeat case_bool_decide; cbn; unfold mret, outcome_ret;
      repeat match goal with E : ¬ _ ≠ _ |- _ => apply dec_stable in E end;
      intuition congruence.
Qed.

Section RunFacts.

Context {Origin : Type} `{Countable Origin}.
Context {B : Type} `{!ObjectPermissionStore Origin B}.
Context {W : Type}.
Variable kSerialGrantedDevicesPref : string.
Variable os : platform.

Abbreviation Ctx := (SerialChooserContext Origin B W).
Abbreviation step := (do_call (W:=W) kSerialGrantedDevicesPref os).
Abbreviation run := (do_calls (W:=W) kSerialGrantedDevicesPref os).
Abbreviation check := (HasPortPermission (W:=W) kSerialGrantedDevicesPref os).
Abbreviation listed origin s :=
  (GetGrantedObjects origin kSerialGrantedDevicesPref (browser_context_ s)).
Abbreviation well_formed s :=
  (store_well_formed kSerialGrantedDevicesPref os (browser_context_ s)).
Abbreviation only_adds := (store_only_adds Origin B kSerialGrantedDevicesPref).
Abbreviation keeps := (store_keeps Origin B kSerialGrantedDevicesPref).

Lemma run_nil (st st' : Ctx * W) : run [] st = Returns st' → st' = st.
Proof. by intros [= <-]. Qed.

Lemma run_cons (c : call Origin) (cs : list (call Origin)) (st st' : Ctx * W) :
  run (c :: cs) st = Returns st' →
  ∃ st1, step c st = Returns st1 ∧ run cs st1 = Returns st'.
Proof.
  cbn [do_calls]. destruct (do_call _ _ c st) as [st1|]; [|done].
  intros Hrun. by exists st1.
Qed.

(** What a grant does, whichever kind it is. *)
Lemma step_grant (origin : Origin) (port : SerialPortInfo) (st : Ctx * W) :
  ∃ s',
    step (CallGrantPortPermission origin port) st = Returns (s', st.2)
    ∧ port_manager_ s' = port_manager_ st.1
    ∧ client_receiver_ s' = client_receiver_ st.1
    ∧ (if CanStorePersistentEntry os port
       then browser_context_ s' =
              GrantObjectPermission origin (persistent_value os port)
                kSerialGrantedDevicesPref (browser_context_ st.1)
            ∧ ephemeral_ports_ s' = ephemeral_ports_ st.1
       else browser_context_ s' = browser_context_ st.1
            ∧ ephemeral_ports_ s' =
                ephemeral_insert origin (token port) (ephemeral_ports_ st.1)).
Proof.
  cbn [do_call]. destruct (CanStorePersistentEntry os port) eqn:Hcan.
  - destruct (GrantPortPermission_persistent kSerialGrantedDevicesPref os
                origin port st.1 Hcan) as (value & Hv & ->).
    rewrite PortInfoToValue_persistent in Hv by done. injection Hv as <-.
    by eexists.
  - destruct (GrantPortPermission_ephemeral kSerialGrantedDevicesPref os
                origin port st.1 Hcan) as (value & Hv & ->).
    by eexists.
Qed.

Lemma check_returns (origin : Origin) (port : SerialPortInfo) (s : Ctx) :
  well_formed s → ∃ found, check origin port s = Returns found.
Proof.
  intros Hwf. rewrite HasPortPermission_unfold.
  case_bool_decide; [by eexists|].
  destruct (CanStorePersistentEntry os port); [|by eexists].
  destruct (scan_granted_objects_found os port _ (Hwf origin)) as (found & -> & _).
  by eexists.
Qed.

Lemma step_returns (c : call Origin) (st : Ctx * W) :
  only_adds → well_formed st.1 →
  ∃ st', step c st = Returns st' ∧ well_formed st'.1.
Proof.
  intros Hadds Hwf. destruct c as [origin port|origin port| | | |].
  - destruct (step_grant origin port st) as (s' & -> & _ & _ & Hkind).
    eexists. split; [done|]. cbn [fst]. intros origin'.
    destruct (CanStorePersistentEntry os port); destruct Hkind as [-> _]; [|done].
    apply Forall_forall. intros d [Hold|[_ ->]]%Hadds.
    + revert d Hold. apply Forall_forall, Hwf.
    + apply persistent_value_has_compared_keys.
  - cbn [do_call]. destruct (check_returns origin port st.1 Hwf) as [found ->].
    by exists st.
  - eexists. split; [done|]. cbn. unfold EnsurePortManagerConnection.
    by destruct (port_manager_ st.1).
  - eexists. by split.
  - eexists. by split.
  - eexists. by split.
Qed.

Lemma run_returns (cs : list (call Origin)) (st : Ctx * W) :
  only_adds → well_formed st.1 →
  ∃ st', run cs st = Returns st' ∧ well_formed st'.1.
Proof.
  intros Hadds. revert st. induction cs as [|c cs IH]; intros st Hwf.
  - by exists st.
  - cbn [do_calls]. destruct (step_returns c st Hadds Hwf) as (st1 & -> & Hwf1).
    apply (IH st1 Hwf1).
Qed.

(** X8. With a store that only adds what is granted, and whose objects have
    the keys the scan compares when the run starts (an empty store, or what
    earlier runs of the context left), no sequence of calls crashes: every
    call returns, and so does every check afterwards. *)
Theorem calls_never_crash (cs : list (call Origin)) (st : Ctx * W) :
  only_adds → well_formed st.1 →
  ∃ st',
    run cs st = Returns st'
    ∧ ∀ origin port, ∃ found, check origin port st'.1 = Returns found.
Proof.
  intros Hadds Hwf. destruct (run_returns cs st Hadds Hwf) as (st' & Hrun & Hwf').
  exists st'. split; [done|]. intros origin port. by apply check_returns.
Qed.

(** X9. A port arriving or leaving, a request for the port manager and a
    check change the answer of no check: only a grant and the loss of the
    connection do. *)
Theorem only_grant_and_disconnect_change_checks
  (c : call Origin) (st st' : Ctx * W) :
  (∀ origin port, c ≠ CallGrantPortPermission origin port) →
  c ≠ CallOnPortManagerConnectionError →
  step c st = Returns st' →
  ∀ origin port, check origin port st'.1 = check origin port st.1.
Proof.
  intros Hgrant Herror Hstep origin port.
  destruct c as [o p|o p| | | |]; unfold do_call, mret, outcome_ret in Hstep.
  - by destruct (Hgrant o p).
  - destruct (HasPortPermission _ _ o p st.1); by simplify_eq/=.
  - simplify_eq/=. unfold EnsurePortManagerConnection.
    by destruct (port_manager_ st.1).
  - by simplify_eq/=.
  - by simplify_eq/=.
  - done.
Qed.

(** The two endpoints of the connection after one call. *)
Lemma step_endpoints (c : call Origin) (st st' : Ctx * W) :
  port_manager_ st.1 = client_receiver_ st.1 →
  step c st = Returns st' →
  port_manager_ st'.1 = client_receiver_ st'.1.
Proof.
  intros Hinv Hstep. destruct c as [o p|o p| | | |]; unfold do_call, mret, outcome_ret in Hstep.
  - destruct (step_grant o p st) as (s' & Hs & Hm & Hr & _).
    unfold do_call, mret, outcome_ret in Hs. rewrite Hs in Hstep.
    simplify_eq/=. congruence.
  - destruct (HasPortPermission _ _ o p st.1); by simplify_eq/=.
  - simplify_eq/=. unfold EnsurePortManagerConnection.
    destruct (port_manager_ st.1) eqn:Hm; cbn; congruence.
  - by simplify_eq/=.
  - by simplify_eq/=.
  - by simplify_eq/=.
Qed.

(** X10. The port manager and the client receiver are bound together: from a
    context in which both are bound or both are not (the constructed context
    has neither), every run of calls ends in such a context. So
    [EnsurePortManagerConnection], which sets the connection up when the
    manager is not bound, always binds a receiver that is not bound; and
    after it both are. *)
Theorem endpoints_bound_together (cs : list (call Origin)) (st st' : Ctx * W) :
  port_manager_ st.1 = client_receiver_ st.1 →
  run cs st = Returns st' →
  port_manager_ st'.1 = client_receiver_ st'.1
  ∧ (GetPortManager st'.1).2 = true
  ∧ client_receiver_ (GetPortManager st'.1).1 = true.
Proof.
  intros Hinv Hrun.
  assert (port_manager_ st'.1 = client_receiver_ st'.1) as Hinv'.
  { revert st Hinv Hrun. induction cs as [|c cs IH]; intros st Hinv Hrun.
    - by apply run_nil in Hrun as ->.
    - apply run_cons in Hrun as (st1 & Hstep & Hrun).
      apply (IH st1); [|done]. by apply (step_endpoints c st). }
  split; [done|]. unfold GetPortManager, EnsurePortManagerConnection. cbn.
  destruct (port_manager_ st'.1) eqn:Hm; cbn; [|done]. by rewrite Hm, <- Hinv'.
Qed.

End RunFacts.

Section GrantHistory.

Context {Origin : Type} `{Countable Origin}.
Context {B : Type} `{!ObjectPermissionStore Origin B}.
Context {W : Type}.
Variable kSerialGrantedDevicesPref : string.
Variable os : platform.

Abbreviation Ctx := (SerialChooserContext Origin B W).
Abbreviation step := (do_call (W:=W) kSerialGrantedDevicesPref os).
Abbreviation run := (do_calls (W:=W) kSerialGrantedDevicesPref os).
Abbreviation check := (HasPortPermission (W:=W) kSerialGrantedDevicesPref os).
Abbreviation listed origin s :=
  (GetGrantedObjects origin kSerialGrantedDevicesPref (browser_context_ s)).
Abbreviation well_formed s :=
  (store_well_formed kSerialGrantedDevicesPref os (browser_context_ s)).
Abbreviation only_adds := (store_only_adds Origin B kSerialGrantedDevicesPref).
Abbreviation keeps := (store_keeps Origin B kSerialGrantedDevicesPref).
Abbreviation accounted := (accounted_for (W:=W) kSerialGrantedDevicesPref os).

Lemma call_grant_or_other (c : call Origin) :
  (∃ origin port, c = CallGrantPortPermission origin port)
  ∨ (∀ origin port, c ≠ CallGrantPortPermission origin port).
Proof. destruct c; by eauto. Qed.

(** What a call other than a grant does to the grants. *)
Lemma step_other (c : call Origin) (st st' : Ctx * W) :
  (∀ origin port, c ≠ CallGrantPortPermission origin port) →
  step c st = Returns st' →
  browser_context_ st'.1 = browser_context_ st.1
  ∧ (ephemeral_ports_ st'.1 = ephemeral_ports_ st.1
     ∨ (c = CallOnPortManagerConnectionError ∧ ephemeral_ports_ st'.1 = ∅)).
Proof.
  intros Hgrant Hstep.
  destruct c as [o p|o p| | | |]; unfold do_call, mret, outcome_ret in Hstep.
  - by destruct (Hgrant o p).
  - destruct (HasPortPermission _ _ o p st.1); simplify_eq/=. by auto.
  - simplify_eq/=. unfold EnsurePortManagerConnection.
    destruct (port_manager_ st.1); by auto.
  - simplify_eq/=. by auto.
  - simplify_eq/=. by auto.
  - simplify_eq/=. by auto.
Qed.

Lemma step_accounted (pre : list (call Origin)) (c : call Origin) (st st' : Ctx * W) :
  only_adds → accounted pre st.1 → step c st = Returns st' →
  accounted (pre ++ [c]) st'.1.
Proof.
  intros Hadds [Heph Hstore] Hstep.
  assert (∀ origin granted,
            CallGrantPortPermission origin granted ∈ pre →
            CallGrantPortPermission origin granted ∈ pre ++ [c]) as Hpre.
  { intros origin granted Hin. apply elem_of_app. by left. }
  destruct (call_grant_or_other c) as [(origin & port & ->)|Hother].
  - destruct (step_grant kSerialGrantedDevicesPref os origin port st)
      as (s' & Hs & _ & _ & Hkind).
    rewrite Hs in Hstep. injection Hstep as <-. cbn [fst].
    assert (CallGrantPortPermission origin port
              ∈ pre ++ [CallGrantPortPermission origin port]) as Hlast.
    { apply elem_of_app. right. by apply list_elem_of_singleton. }
    destruct (CanStorePersistentEntry os port) eqn:Hcan;
      destruct Hkind as [Hb He]; split.
    + intros o t. unfold ephemeral_tokens. rewrite He.
      intros (q & Hq & ?)%Heph. exists q. by auto.
    + intros o d. rewrite Hb. intros [Hold|[-> ->]]%Hadds.
      * destruct (Hstore o d Hold) as (q & Hq & ?). exists q. by auto.
      * by exists port.
    + intros o t. unfold ephemeral_tokens. rewrite He.
      intros [Hold|[-> ->]]%ephemeral_insert_tokens.
      * destruct (Heph o t Hold) as (q & Hq & ?). exists q. by auto.
      * by exists port.
    + intros o d. rewrite Hb. intros (q & Hq & ?)%Hstore. exists q. by auto.
  - destruct (step_other c st st') as [Hb He]; [done..|].
    split.
    + intros o t. unfold ephemeral_tokens.
      destruct He as [->|[_ ->]].
      * intros (q & Hq & ?)%Heph. exists q. by auto.
      * rewrite lookup_empty. cbn. by intros ?%not_elem_of_empty.
    + intros o d. rewrite Hb. intros (q & Hq & ?)%Hstore. exists q. by auto.
Qed.

Lemma run_accounted (pre cs : list (call Origin)) (st st' : Ctx * W) :
  only_adds → accounted pre st.1 → run cs st = Returns st' →
  accounted (pre ++ cs) st'.1.
Proof.
  intros Hadds. revert pre st. induction cs as [|c cs IH]; intros pre st Hacc Hrun.
  - apply run_nil in Hrun as ->. by rewrite app_nil_r.
  - apply run_cons in Hrun as (st1 & Hstep & Hrun).
    rewrite (cons_middle c pre cs), app_assoc. apply (IH _ st1); [|done].
    by apply (step_accounted pre c st).
Qed.

(** X11. A check succeeds only for what was granted. From a context without
    ephemeral grants whose store lists nothing, with a store that only adds
    what is granted: when after a run of calls [HasPortPermission] returns
    true for an origin and a port, the run holds a grant to that origin of a
    port that cannot be stored persistently and has the same token, or of a
    port that can and shows the same stable identity. *)
Theorem permission_only_if_granted
  (cs : list (call Origin)) (st st' : Ctx * W) (origin : Origin) (port : SerialPortInfo) :
  only_adds →
  ephemeral_ports_ st.1 = ∅ →
  (∀ o, listed o st.1 = []) →
  run cs st = Returns st' →
  check origin port st'.1 = Returns true →
  ∃ granted,
    CallGrantPortPermission origin granted ∈ cs
    ∧ (if CanStorePersistentEntry os granted
       then CanStorePersistentEntry os port = true ∧ same_identity os granted port
       else token port = token granted).
Proof.
  intros Hadds Heph0 Hstore0 Hrun Hcheck.
  assert (accounted [] st.1) as Hacc0.
  { split.
    - intros o t. unfold ephemeral_tokens. rewrite Heph0, lookup_empty. cbn.
      by intros ?%not_elem_of_empty.
    - intros o d. rewrite Hstore0. by intros ?%not_elem_of_nil. }
  destruct (run_accounted [] cs st st' Hadds Hacc0 Hrun) as [Heph Hstore].
  rewrite HasPortPermission_unfold in Hcheck. case_bool_decide as Htoken.
  - destruct (Heph origin _ Htoken) as (granted & Hin & Hcan & Ht).
    exists granted. split; [done|]. by rewrite Hcan.
  - destruct (CanStorePersistentEntry os port) eqn:Hport; [|done].
    apply scan_granted_objects_true in Hcheck
      as (before & device & after & Hlist & _ & Hmatch).
    destruct (Hstore origin device) as (granted & Hin & Hcan & ->).
    { rewrite Hlist. apply elem_of_app. right. by left. }
    exists granted. split; [done|]. rewrite Hcan. split; [done|].
    by apply persistent_value_matches_iff.
Qed.

Lemma step_keeps_listed
  (c : call Origin) (st st' : Ctx * W) (origin : Origin) (d : dict) :
  keeps → d ∈ listed origin st.1 → step c st = Returns st' →
  d ∈ listed origin st'.1.
Proof.
  intros [Hkeep _] Hin Hstep.
  destruct (call_grant_or_other c) as [(o & port & ->)|Hother].
  - destruct (step_grant kSerialGrantedDevicesPref os o port st)
      as (s' & Hs & _ & _ & Hkind).
    rewrite Hs in Hstep. injection Hstep as <-. cbn [fst].
    destruct (CanStorePersistentEntry os port); destruct Hkind as [-> _]; [|done].
    by apply Hkeep.
  - destruct (step_other c st st') as [-> _]; [done..|done].
Qed.

Lemma run_keeps_listed
  (cs : list (call Origin)) (st st' : Ctx * W) (origin : Origin) (d : dict) :
  keeps → d ∈ listed origin st.1 → run cs st = Returns st' →
  d ∈ listed origin st'.1.
Proof.
  intros Hkeeps. revert st. induction cs as [|c cs IH]; intros st Hin Hrun.
  - by apply run_nil in Hrun as ->.
  - apply run_cons in Hrun as (st1 & Hstep & Hrun).
    apply (IH st1); [|done]. by apply (step_keeps_listed c st).
Qed.

(** X12. A grant of a port with a stable identity lasts. With a store that
    only adds, forgets nothing and lists what is granted, and whose objects
    have the compared keys at the start: after the grant and any further
    calls, the loss of the connection and the removal of the port among
    them, [HasPortPermission] returns true for that origin and every port
    that can be stored persistently and shows the same stable identity,
    whatever its token. *)
Theorem persistent_grant_survives
  (cs : list (call Origin)) (st : Ctx * W) (origin : Origin)
  (granted port : SerialPortInfo) :
  only_adds → keeps → well_formed st.1 →
  CanStorePersistentEntry os granted = true →
  CanStorePersistentEntry os port = true →
  same_identity os granted port →
  ∃ st',
    run (CallGrantPortPermission origin granted :: cs) st = Returns st'
    ∧ check origin port st'.1 = Returns true.
Proof.
  intros Hadds Hkeeps Hwf Hgranted Hport Hsame.
  destruct (run_returns kSerialGrantedDevicesPref os
              (CallGrantPortPermission origin granted :: cs) st Hadds Hwf)
    as (st' & Hrun & Hwf').
  exists st'. split; [done|].
  assert (persistent_value os granted ∈ listed origin st'.1) as Hin.
  { apply run_cons in Hrun as (st1 & Hstep & Hrun).
    apply (run_keeps_listed cs st1); [done| |done].
    destruct (step_grant kSerialGrantedDevicesPref os origin granted st)
      as (s' & Hs & _ & _ & Hkind).
    rewrite Hs in Hstep. injection Hstep as <-. cbn [fst].
    rewrite Hgranted in Hkind. destruct Hkind as [-> _]. apply Hkeeps. }
  rewrite HasPortPermission_unfold. case_bool_decide; [done|]. rewrite Hport.
  destruct (scan_granted_objects_found os port _ (Hwf' origin))
    as (found & -> & Hfound).
  f_equal. apply Hfound, Exists_exists.
  exists (persistent_value os granted). split; [done|].
  by apply persistent_value_matches_iff.
Qed.

Lemma step_keeps_token
  (c : call Origin) (st st' : Ctx * W) (origin : Origin) (t : UnguessableToken) :
  c ≠ CallOnPortManagerConnectionError →
  t ∈ ephemeral_tokens st.1 origin → step c st = Returns st' →
  t ∈ ephemeral_tokens st'.1 origin.
Proof.
  intros Herror Hin Hstep.
  destruct (call_grant_or_other c) as [(o & port & ->)|Hother].
  - destruct (step_grant kSerialGrantedDevicesPref os o port st)
      as (s' & Hs & _ & _ & Hkind).
    rewrite Hs in Hstep. injection Hstep as <-. cbn [fst]. unfold ephemeral_tokens.
    destruct (CanStorePersistentEntry os port); destruct Hkind as [_ ->]; [done|].
    apply ephemeral_insert_tokens. by left.
  - destruct (step_other c st st') as [_ [He|[? _]]]; [done..| |done].
    unfold ephemeral_tokens. by rewrite He.
Qed.

(** X13. A grant of a port that cannot be stored persistently lasts until the
    connection is lost. With a store as in X8: after the grant and any
    further calls that do not include [OnPortManagerConnectionError], the
    removal of the port among them, [HasPortPermission] returns true for
    that origin and every port with the same token. *)
Theorem ephemeral_grant_lasts_until_disconnect
  (cs : list (call Origin)) (st : Ctx * W) (origin : Origin)
  (granted port : SerialPortInfo) :
  only_adds → well_formed st.1 →
  CanStorePersistentEntry os granted = false →
  token port = token granted →
  CallOnPortManagerConnectionError ∉ cs →
  ∃ st',
    run (CallGrantPortPermission origin granted :: cs) st = Returns st'
    ∧ check origin port st'.1 = Returns true.
Proof.
  intros Hadds Hwf Hgranted Htoken Hnoerror.
  destruct (run_returns kSerialGrantedDevicesPref os
              (CallGrantPortPermission origin granted :: cs) st Hadds Hwf)
    as (st' & Hrun & _).
  exists st'. split; [done|].
  rewrite HasPortPermission_unfold, bool_decide_eq_true_2; [done|]. rewrite Htoken.
  apply run_cons in Hrun as (st1 & Hstep & Hrun).
  assert (token granted ∈ ephemeral_tokens st1.1 origin) as Hin.
  { destruct (step_grant kSerialGrantedDevicesPref os origin granted st)
      as (s' & Hs & _ & _ & Hkind).
    rewrite Hs in Hstep. injection Hstep as <-. cbn [fst]. unfold ephemeral_tokens.
    rewrite Hgranted in Hkind. destruct Hkind as [_ ->].
    apply ephemeral_insert_tokens. by right. }
  clear Hstep. revert st1 Hin Hrun Hnoerror.
  induction cs as [|c cs IH]; intros st1 Hin Hrun Hnoerror.
  - by apply run_nil in Hrun as ->.
  - apply run_cons in Hrun as (st2 & Hstep & Hrun).
    apply not_elem_of_cons in Hnoerror as [Hc Hcs].
    apply (IH st2); [|done..]. apply (step_keeps_token c st1); [congruence|done..].
Qed.

End GrantHistory.

(** ** The sample store and the further properties at the sample ports *)

Lemma PrefStore_only_adds (key : string) : store_only_adds string PrefStore key.
Proof.
  intros origin origin' object d prefs. cbn. unfold PrefStore in *.
  case_bool_decide; [by left|].
  destruct (decide (origin' = origin)) as [->|Hne].
  - rewrite lookup_insert_eq. cbn. intros [Hold|Hnew%list_elem_of_singleton]%elem_of_app.
    + by left.
    + by right.
  - rewrite lookup_insert_ne by congruence. by left.
Qed.

Lemma PrefStore_keeps (key : string) : store_keeps string PrefStore key.
Proof.
  split.
  - intros origin origin' object d prefs. cbn. unfold PrefStore in *.
    case_bool_decide; [done|].
    destruct (decide (origin' = origin)) as [->|Hne].
    + rewrite lookup_insert_eq. cbn. intros Hold. apply elem_of_app. by left.
    + by rewrite lookup_insert_ne by congruence.
  - intros origin object prefs. cbn. unfold PrefStore in *.
    case_bool_decide; [done|].
    rewrite lookup_insert_eq. cbn. apply elem_of_app. right. by left.
Qed.

Lemma fresh_context_well_formed (os : platform) :
  store_well_formed sample_pref os (browser_context_ fresh_context).
Proof. intros origin. cbn. unfold PrefStore. rewrite lookup_empty. by constructor. Qed.

Lemma fresh_context_lists_nothing (origin : string) :
  GetGrantedObjects origin sample_pref (browser_context_ fresh_context) = [].
Proof. cbn. unfold PrefStore. by rewrite lookup_empty. Qed.

Lemma EncodeToken_injective_witness :
  token_in_range (MkToken 1 2)
  ∧ EncodeToken (MkToken 1 2) = EncodeToken (MkToken 1 2)
  ∧ MkToken 1 2 = MkToken 1 2.
Proof.
  assert (token_in_range (MkToken 1 2)) as Ht by (repeat split; by vm_compute).
  split; [exact Ht|]. split; [reflexivity|].
  exact (EncodeToken_injective (MkToken 1 2) (MkToken 1 2) Ht Ht eq_refl).
Defined.

Lemma PortInfoToValue_token_roundtrip_witness :
  CanStorePersistentEntry OS_OTHER tty_port = false
  ∧ token_in_range (token tty_port)
  ∧ ∃ value encoded,
      PortInfoToValue OS_OTHER tty_port = Returns value
      ∧ FindStringKey kTokenKey value = Some encoded
      ∧ DecodeToken encoded = token tty_port.
Proof.
  assert (token_in_range (token tty_port)) as Ht by (repeat split; by vm_compute).
  split; [reflexivity|]. split; [exact Ht|].
  exact (PortInfoToValue_token_roundtrip OS_OTHER tty_port eq_refl Ht).
Defined.

Lemma GrantPortPermission_ephemeral_idempotent_witness :
  CanStorePersistentEntry OS_OTHER tty_port = false
  ∧ ∃ s',
      GrantPortPermission sample_pref OS_OTHER origin_x tty_port fresh_context
      = Returns s'
      ∧ GrantPortPermission sample_pref OS_OTHER origin_x tty_port s' = Returns s'.
Proof.
  split; [reflexivity|].
  exact (GrantPortPermission_ephemeral_idempotent sample_pref OS_OTHER origin_x
           tty_port fresh_context eq_refl).
Defined.

Lemma ephemeral_grant_only_for_token_witness :
  CanStorePersistentEntry OS_OTHER tty_port = false
  ∧ ∃ s',
      GrantPortPermission sample_pref OS_OTHER origin_x tty_port fresh_context
      = Returns s'
      ∧ ∀ origin' port',
          ¬ (origin' = origin_x ∧ token port' = token tty_port) →
          HasPortPermission sample_pref OS_OTHER origin' port' s' =
          HasPortPermission sample_pref OS_OTHER origin' port' fresh_context.
Proof.
  split; [reflexivity|].
  exact (ephemeral_grant_only_for_token sample_pref OS_OTHER origin_x
           tty_port fresh_context eq_refl).
Defined.

Lemma observers_notified_once_in_order_witness :
  port_observer_list_ fresh_context = logging_observer <$> [0; 1]%nat
  ∧ (OnPortAdded tty_port fresh_context []).2
    = [] ++ ((λ n, PortAdded n tty_port) <$> [0; 1]%nat)
  ∧ (OnPortRemoved tty_port fresh_context []).2
    = [] ++ ((λ n, PortRemoved n tty_port) <$> [0; 1]%nat).
Proof.
  split; [reflexivity|].
  exact (observers_notified_once_in_order [0; 1]%nat tty_port fresh_context []
           eq_refl).
Defined.

Lemma calls_never_crash_witness :
  store_only_adds string PrefStore sample_pref
  ∧ store_well_formed sample_pref OS_OTHER (browser_context_ fresh_context)
  ∧ ∃ st',
      do_calls sample_pref OS_OTHER sample_calls (fresh_context, []) = Returns st'
      ∧ ∀ origin port, ∃ found,
          HasPortPermission sample_pref OS_OTHER origin port st'.1 = Returns found.
Proof.
  split; [apply PrefStore_only_adds|]. split; [apply fresh_context_well_formed|].
  exact (calls_never_crash sample_pref OS_OTHER sample_calls (fresh_context, [])
           (PrefStore_only_adds sample_pref) (fresh_context_well_formed OS_OTHER)).
Defined.

Lemma only_grant_and_disconnect_change_checks_witness :
  do_call sample_pref OS_OTHER (CallOnPortRemoved tty_port) (context_with_tty, [])
  = Returns (OnPortRemoved tty_port context_with_tty [])
  ∧ ∀ origin port,
      HasPortPermission sample_pref OS_OTHER origin port
        (OnPortRemoved tty_port context_with_tty []).1
      = HasPortPermission sample_pref OS_OTHER origin port context_with_tty.
Proof.
  split; [reflexivity|].
  apply (only_grant_and_disconnect_change_checks sample_pref OS_OTHER
           (CallOnPortRemoved tty_port) (context_with_tty, [])
           (OnPortRemoved tty_port context_with_tty [])).
  - discriminate.
  - discriminate.
  - reflexivity.
Defined.

Lemma endpoints_bound_together_witness :
  port_manager_ fresh_context = client_receiver_ fresh_context
  ∧ port_manager_
      (OnPortManagerConnectionError (EnsurePortManagerConnection fresh_context))
    = client_receiver_
        (OnPortManagerConnectionError (EnsurePortManagerConnection fresh_context))
  ∧ (GetPortManager
       (OnPortManagerConnectionError (EnsurePortManagerConnection fresh_context))).2
    = true
  ∧ client_receiver_
      (GetPortManager
         (OnPortManagerConnectionError (EnsurePortManagerConnection fresh_context))).1
    = true.
Proof.
  split; [reflexivity|].
  exact (endpoints_bound_together sample_pref OS_OTHER
           [CallGetPortManager; CallOnPortManagerConnectionError]
           (fresh_context, [])
           (OnPortManagerConnectionError (EnsurePortManagerConnection fresh_context), [])
           eq_refl eq_refl).
Defined.

Lemma permission_only_if_granted_witness :
  do_calls sample_pref OS_OTHER [CallGrantPortPermission origin_x tty_port]
    (fresh_context, []) = Returns (context_with_tty, [])
  ∧ HasPortPermission sample_pref OS_OTHER origin_x tty_port context_with_tty
    = Returns true
  ∧ ∃ granted,
      CallGrantPortPermission origin_x granted
        ∈ [CallGrantPortPermission origin_x tty_port]
      ∧ (if CanStorePersistentEntry OS_OTHER granted
         then CanStorePersistentEntry OS_OTHER tty_port = true
              ∧ same_identity OS_OTHER granted tty_port
         else token tty_port = token granted).
Proof.
  assert (do_calls sample_pref OS_OTHER [CallGrantPortPermission origin_x tty_port]
            (fresh_context, []) = Returns (context_with_tty, [])) as Hrun
    by (vm_compute; reflexivity).
  assert (HasPortPermission sample_pref OS_OTHER origin_x tty_port context_with_tty
          = Returns true) as Hcheck by (vm_compute; reflexivity).
  split; [exact Hrun|]. split; [exact Hcheck|].
  exact (permission_only_if_granted sample_pref OS_OTHER
           [CallGrantPortPermission origin_x tty_port]
           (fresh_context, []) (context_with_tty, []) origin_x tty_port
           (PrefStore_only_adds sample_pref) eq_refl fresh_context_lists_nothing
           Hrun Hcheck).
Defined.

Lemma persistent_grant_survives_witness :
  CanStorePersistentEntry OS_OTHER widget_port = true
  ∧ CanStorePersistentEntry OS_OTHER widget_port_again = true
  ∧ same_identity OS_OTHER widget_port widget_port_again
  ∧ ∃ st',
      do_calls sample_pref OS_OTHER
        [CallGrantPortPermission origin_x widget_port;
         CallOnPortRemoved widget_port;
         CallOnPortManagerConnectionError]
        (fresh_context, []) = Returns st'
      ∧ HasPortPermission sample_pref OS_OTHER origin_x widget_port_again st'.1
        = Returns true.
Proof.
  assert (same_identity OS_OTHER widget_port widget_port_again) as Hsame
    by (by repeat split).
  split; [reflexivity|]. split; [reflexivity|]. split; [exact Hsame|].
  exact (persistent_grant_survives sample_pref OS_OTHER
           [CallOnPortRemoved widget_port; CallOnPortManagerConnectionError]
           (fresh_context, []) origin_x widget_port widget_port_again
           (PrefStore_only_adds sample_pref) (PrefStore_keeps sample_pref)
           (fresh_context_well_formed OS_OTHER) eq_refl eq_refl Hsame).
Defined.

Lemma ephemeral_grant_lasts_until_disconnect_witness :
  CanStorePersistentEntry OS_OTHER tty_port = false
  ∧ (CallOnPortManagerConnectionError
       ∉ [CallOnPortRemoved tty_port; CallGetPortManager (Origin:=string)])
  ∧ ∃ st',
      do_calls sample_pref OS_OTHER
        [CallGrantPortPermission origin_x tty_port;
         CallOnPortRemoved tty_port;
         CallGetPortManager]
        (fresh_context, []) = Returns st'
      ∧ HasPortPermission sample_pref OS_OTHER origin_x tty_port st'.1
        = Returns true.
Proof.
  assert (CallOnPortManagerConnectionError
            ∉ [CallOnPortRemoved tty_port; CallGetPortManager (Origin:=string)])
    as Hnoerror.
  { intros Hin. repeat (apply elem_of_cons in Hin as [Hin|Hin]; [discriminate|]).
    by apply not_elem_of_nil in Hin. }
  split; [reflexivity|]. split; [exact Hnoerror|].
  exact (ephemeral_grant_lasts_until_disconnect sample_pref OS_OTHER
           [CallOnPortRemoved tty_port; CallGetPortManager]
           (fresh_context, []) origin_x tty_port tty_port
           (PrefStore_only_adds sample_pref) (fresh_context_well_formed OS_OTHER)
           eq_refl eq_refl Hnoerror).
Defined.
